(** * Cloud Racing: the simulation engine of [src/App.js]

    A shallow embedding of the game-state update of the React component
    [App]: player movement, obstacle spawning, the obstacle loop (advance,
    pass-scoring, trailing-edge cull, collision), the round life cycle
    ([restart], [startGame], the frame [loop]) and the difficulty picker.

    Numbers.  JavaScript numbers are modelled as real numbers [R]: the
    arithmetic of the source is read exactly, without rounding, overflow or
    NaN.  [Math.max], [Math.min], [Math.hypot], [Math.sin], [Math.floor] and
    [Math.PI] are [Rmax], [Rmin], [sqrt (x*x + y*y)], [sin], [Zfloor] and [PI].
    A double-precision run agrees with this reading up to the last bits of
    each result; where two sides of a comparison of the source are within
    that distance of each other (a timer that lands on its threshold, a
    distance that equals the collision bound) the run may take the other
    branch; the statements below are about the exact reading.

    Randomness.  [Math.random()] is an ambient generator; a function takes
    the sequence [rnd : nat -> R] of the values the next calls will return
    and draws from it in the order in which the source evaluates the calls.

    State.  The [useRef] cells and the [useState] values that the engine
    reads or writes are the fields of one record [State].  A [setX(v)] of
    React is modelled as taking effect at the end of the handler that calls
    it, and the effect that copies [difficulty] into [difficultyRef] as part
    of the setter.

    Left out: drawing ([render] and the [draw*] helpers), the audio element
    and the synthesiser ([startMusic], [stopMusic]), canvas sizing and the
    conversion of pointer events to field coordinates.  None of them writes
    a field of [State]. *)

From Stdlib Require Import Reals Lra Lia List String Ascii ZArith Bool.
From Stdlib Require Import DecimalString DecimalZ DecimalPos.
Import ListNotations.

Open Scope R_scope.

(** ** Comparisons of the source as booleans *)

Definition Rltb (a b : R) : bool := if Rlt_dec a b then true else false.
Definition Rleb (a b : R) : bool := if Rle_dec a b then true else false.

(** ** Constants (lines 3-9) *)

Definition WIDTH : R := 800.
Definition HEIGHT : R := 500.
Definition CLOUD_RADIUS : R := 20.
Definition PLAYER_SPEED : R := 260.
Definition BASE_SCROLL_SPEED : R := 200.

(** ** Data model *)

Inductive ObstacleType := asteroid | alien.

Inductive Difficulty := easy | medium | hard.

Inductive GameState := menu | playing.

(** An element of [obstaclesRef.current].  An asteroid object has no
    [wobblePhase] and no [life] property; the source reads them only under
    [o.type === 'alien'], and the record holds 0 there. *)
Record Obstacle := mkObstacle {
  type : ObstacleType;
  x : R;
  y : R;
  radius : R;
  speed : R;
  wobblePhase : R;
  life : R;
  scored : bool
}.

(** [playerRef.current]. *)
Record Player := mkPlayer { player_x : R; player_y : R }.

(** [pointerRef.current]. *)
Record Pointer := mkPointer { active : bool; pointer_x : R; pointer_y : R }.

(** [spawnTimersRef.current]. *)
Record SpawnTimers := mkSpawnTimers { asteroidMs : R; alienMs : R }.

Record State := mkState {
  (* refs *)
  playerRef : Player;
  keysRef : list string;
  pointerRef : Pointer;
  spawnTimersRef : SpawnTimers;
  obstaclesRef : list Obstacle;
  scoreRef : R;
  difficultyRef : Difficulty;
  lastTimeRef : R;
  speechAllowedRef : bool;
  isMutedRef : bool;
  (* React state *)
  score : Z;
  gameOver : bool;
  gameState : GameState;
  difficulty : Difficulty;
  (* the speech collaborator *)
  speechSynthesis : bool;      (* [window.speechSynthesis] exists *)
  speechQueue : list string;   (* utterances handed to the synthesiser *)
  speakCalls : list string     (* arguments of the calls [speak(text)], newest first *)
}.

Definition set_obstacle_scored (b : bool) (o : Obstacle) : Obstacle :=
  mkObstacle (type o) (x o) (y o) (radius o) (speed o) (wobblePhase o) (life o) b.

Definition set_playerRef (p : Player) (st : State) : State :=
  mkState p (keysRef st) (pointerRef st) (spawnTimersRef st) (obstaclesRef st)
    (scoreRef st) (difficultyRef st) (lastTimeRef st) (speechAllowedRef st)
    (isMutedRef st) (score st) (gameOver st) (gameState st) (difficulty st)
    (speechSynthesis st) (speechQueue st) (speakCalls st).

Definition set_keysRef (ks : list string) (st : State) : State :=
  mkState (playerRef st) ks (pointerRef st) (spawnTimersRef st) (obstaclesRef st)
    (scoreRef st) (difficultyRef st) (lastTimeRef st) (speechAllowedRef st)
    (isMutedRef st) (score st) (gameOver st) (gameState st) (difficulty st)
    (speechSynthesis st) (speechQueue st) (speakCalls st).

Definition set_pointerRef (q : Pointer) (st : State) : State :=
  mkState (playerRef st) (keysRef st) q (spawnTimersRef st) (obstaclesRef st)
    (scoreRef st) (difficultyRef st) (lastTimeRef st) (speechAllowedRef st)
    (isMutedRef st) (score st) (gameOver st) (gameState st) (difficulty st)
    (speechSynthesis st) (speechQueue st) (speakCalls st).

Definition set_spawnTimersRef (t : SpawnTimers) (st : State) : State :=
  mkState (playerRef st) (keysRef st) (pointerRef st) t (obstaclesRef st)
    (scoreRef st) (difficultyRef st) (lastTimeRef st) (speechAllowedRef st)
    (isMutedRef st) (score st) (gameOver st) (gameState st) (difficulty st)
    (speechSynthesis st) (speechQueue st) (speakCalls st).

Definition set_obstaclesRef (l : list Obstacle) (st : State) : State :=
  mkState (playerRef st) (keysRef st) (pointerRef st) (spawnTimersRef st) l
    (scoreRef st) (difficultyRef st) (lastTimeRef st) (speechAllowedRef st)
    (isMutedRef st) (score st) (gameOver st) (gameState st) (difficulty st)
    (speechSynthesis st) (speechQueue st) (speakCalls st).

Definition set_scoreRef (s : R) (st : State) : State :=
  mkState (playerRef st) (keysRef st) (pointerRef st) (spawnTimersRef st)
    (obstaclesRef st) s (difficultyRef st) (lastTimeRef st)
    (speechAllowedRef st) (isMutedRef st) (score st) (gameOver st)
    (gameState st) (difficulty st)
    (speechSynthesis st) (speechQueue st) (speakCalls st).

Definition set_lastTimeRef (t : R) (st : State) : State :=
  mkState (playerRef st) (keysRef st) (pointerRef st) (spawnTimersRef st)
    (obstaclesRef st) (scoreRef st) (difficultyRef st) t
    (speechAllowedRef st) (isMutedRef st) (score st) (gameOver st)
    (gameState st) (difficulty st)
    (speechSynthesis st) (speechQueue st) (speakCalls st).

Definition set_speechAllowedRef (b : bool) (st : State) : State :=
  mkState (playerRef st) (keysRef st) (pointerRef st) (spawnTimersRef st)
    (obstaclesRef st) (scoreRef st) (difficultyRef st) (lastTimeRef st)
    b (isMutedRef st) (score st) (gameOver st)
    (gameState st) (difficulty st)
    (speechSynthesis st) (speechQueue st) (speakCalls st).

Definition set_isMutedRef (b : bool) (st : State) : State :=
  mkState (playerRef st) (keysRef st) (pointerRef st) (spawnTimersRef st)
    (obstaclesRef st) (scoreRef st) (difficultyRef st) (lastTimeRef st)
    (speechAllowedRef st) b (score st) (gameOver st)
    (gameState st) (difficulty st)
    (speechSynthesis st) (speechQueue st) (speakCalls st).

Definition setScore (n : Z) (st : State) : State :=
  mkState (playerRef st) (keysRef st) (pointerRef st) (spawnTimersRef st)
    (obstaclesRef st) (scoreRef st) (difficultyRef st) (lastTimeRef st)
    (speechAllowedRef st) (isMutedRef st) n (gameOver st)
    (gameState st) (difficulty st)
    (speechSynthesis st) (speechQueue st) (speakCalls st).

Definition setGameOver (b : bool) (st : State) : State :=
  mkState (playerRef st) (keysRef st) (pointerRef st) (spawnTimersRef st)
    (obstaclesRef st) (scoreRef st) (difficultyRef st) (lastTimeRef st)
    (speechAllowedRef st) (isMutedRef st) (score st) b
    (gameState st) (difficulty st)
    (speechSynthesis st) (speechQueue st) (speakCalls st).

Definition setGameState (g : GameState) (st : State) : State :=
  mkState (playerRef st) (keysRef st) (pointerRef st) (spawnTimersRef st)
    (obstaclesRef st) (scoreRef st) (difficultyRef st) (lastTimeRef st)
    (speechAllowedRef st) (isMutedRef st) (score st) (gameOver st)
    g (difficulty st)
    (speechSynthesis st) (speechQueue st) (speakCalls st).

(** [setDifficulty(d)] (line 40) followed by the effect of lines 128-130,
    which copies the new value into [difficultyRef.current]. *)
Definition setDifficulty (d : Difficulty) (st : State) : State :=
  mkState (playerRef st) (keysRef st) (pointerRef st) (spawnTimersRef st)
    (obstaclesRef st) (scoreRef st) d (lastTimeRef st)
    (speechAllowedRef st) (isMutedRef st) (score st) (gameOver st)
    (gameState st) d
    (speechSynthesis st) (speechQueue st) (speakCalls st).

(** The values of the [useRef] and [useState] calls of lines 20-43. *)
Definition initial_state (synth : bool) : State :=
  mkState (mkPlayer 120 (HEIGHT / 2)) [] (mkPointer false 0 0)
    (mkSpawnTimers 0 0) [] 0 easy 0 false false
    0%Z false menu easy synth [] [].

(** ** Helpers (lines 11-17) *)

Definition rand (min max : R) (rnd : nat -> R) (k : nat) : R :=
  rnd k * (max - min) + min.

Definition length (x y : R) : R := sqrt (x * x + y * y).

(** ** speak (lines 393-402) *)

Definition speak (text : string) (st : State) : State :=
  let st1 :=
    mkState (playerRef st) (keysRef st) (pointerRef st) (spawnTimersRef st)
      (obstaclesRef st) (scoreRef st) (difficultyRef st) (lastTimeRef st)
      (speechAllowedRef st) (isMutedRef st) (score st) (gameOver st)
      (gameState st) (difficulty st)
      (speechSynthesis st) (speechQueue st) (text :: speakCalls st) in
  if negb (speechAllowedRef st) || isMutedRef st then st1
  else if negb (speechSynthesis st) then st1
  else
    (* [cancel()] empties the queue, [speak(utter)] enqueues *)
    mkState (playerRef st1) (keysRef st1) (pointerRef st1) (spawnTimersRef st1)
      (obstaclesRef st1) (scoreRef st1) (difficultyRef st1) (lastTimeRef st1)
      (speechAllowedRef st1) (isMutedRef st1) (score st1) (gameOver st1)
      (gameState st1) (difficulty st1)
      (speechSynthesis st1) [text] (speakCalls st1).

(** The text of the template literal of line 242 for a floored score. *)
Definition number_to_string (n : Z) : string :=
  NilZero.string_of_int (Z.to_int n).

Definition game_over_text (n : Z) : string :=
  ("Game over. Score " ++ number_to_string n)%string.

(** ** restart and startGame (lines 147-170) *)

Definition restart (now : R) (st : State) : State :=
  let st := set_obstaclesRef [] st in
  let st := set_spawnTimersRef (mkSpawnTimers 0 0) st in
  let st := set_scoreRef 0 st in
  let st := setScore 0%Z st in
  let st := set_playerRef (mkPlayer 120 (HEIGHT / 2)) st in
  let st := setGameOver false st in
  set_lastTimeRef now st.

Definition startGame (now : R) (st : State) : State :=
  setGameState playing (restart now st).

(** ** spawnObstacle (lines 258-281)

    [k] is the index of the next value of [rnd]; an asteroid draws three
    values (y, radius, speed factor) and an alien four (y, radius, speed
    factor, wobble phase), in that order.  The new object is pushed at the
    end of the array. *)

Definition spawnObstacle (ty : ObstacleType) (spd : R) (rnd : nat -> R)
    (k : nat) (obs : list Obstacle) : list Obstacle * nat :=
  let y0 := rand 40 (HEIGHT - 40) rnd k in
  match ty with
  | asteroid =>
      (obs ++ [mkObstacle asteroid (WIDTH + 40) y0
                 (rand 14 28 rnd (k + 1))
                 (spd * rand 0.95 1.25 rnd (k + 2))
                 0 0 false],
       (k + 3)%nat)
  | alien =>
      (obs ++ [mkObstacle alien (WIDTH + 60) y0
                 (rand 18 26 rnd (k + 1))
                 (spd * rand 0.95 1.2 rnd (k + 2))
                 (rand 0 (PI * 2) rnd (k + 3))
                 0 false],
       (k + 4)%nat)
  end.

(** ** update, part 1: the player (lines 173-196) *)

Definition has (ks : list string) (k : string) : bool :=
  existsb (String.eqb k) ks.

Definition vertical (ks : list string) : R :=
  (if has ks "arrowdown" || has ks "s" then 1 else 0)
  - (if has ks "arrowup" || has ks "w" then 1 else 0).

Definition horizontal (ks : list string) : R :=
  (if has ks "arrowright" || has ks "d" then 1 else 0)
  - (if has ks "arrowleft" || has ks "a" then 1 else 0).

Definition deadZone : R := 6.

Definition move_player (dt : R) (ks : list string) (ptr : Pointer)
    (p : Player) : Player :=
  (* keys *)
  let px := player_x p + horizontal ks * PLAYER_SPEED * dt in
  let py := player_y p + vertical ks * PLAYER_SPEED * dt in
  (* touch/pointer steering *)
  let '(px, py) :=
    if active ptr then
      let dx := pointer_x ptr - px in
      let dy := pointer_y ptr - py in
      let dist := sqrt (dx * dx + dy * dy) in
      if Rltb deadZone dist then
        let ux := dx / dist in
        let uy := dy / dist in
        (px + ux * PLAYER_SPEED * dt, py + uy * PLAYER_SPEED * dt)
      else (px, py)
    else (px, py) in
  (* clamp *)
  mkPlayer (Rmax CLOUD_RADIUS (Rmin (WIDTH - CLOUD_RADIUS) px))
           (Rmax CLOUD_RADIUS (Rmin (HEIGHT - CLOUD_RADIUS) py)).

(** ** update, part 2: difficulty scaling and spawn timers (lines 199-217) *)

Definition diffMult (d : Difficulty) : R :=
  match d with hard => 1.25 | medium => 1.0 | easy => 0.85 end.

Definition speedBoost (sc : R) : R := Rmin 260 ((sc / 20) * 9).

Definition scrollSpeed (d : Difficulty) (sc : R) : R :=
  (BASE_SCROLL_SPEED * diffMult d) + speedBoost sc.

Definition baseAst (d : Difficulty) : R :=
  match d with hard => 520 | medium => 700 | easy => 900 end.

Definition baseAli (d : Difficulty) : R :=
  match d with hard => 800 | medium => 1100 | easy => 1400 end.

Definition astInterval (d : Difficulty) (sc : R) : R :=
  Rmax (baseAst d * 0.55) (baseAst d - sc * 3.5).

Definition aliInterval (d : Difficulty) (sc : R) : R :=
  Rmax (baseAli d * 0.6) (baseAli d - sc * 3.8).

(** The timers after the two [+= dt * 1000], the two threshold tests and
    the pushes; the result is the new timers and the new array. *)
Definition spawn_phase (dt : R) (rnd : nat -> R) (d : Difficulty) (sc : R)
    (t : SpawnTimers) (obs : list Obstacle) : SpawnTimers * list Obstacle :=
  let tA := asteroidMs t + dt * 1000 in
  let tB := alienMs t + dt * 1000 in
  let '(tA, obs, k) :=
    if Rleb (astInterval d sc) tA then
      let spd := scrollSpeed d sc * (1.0 + (rnd 0%nat - 0.5) * 0.2) in
      let '(obs, k) := spawnObstacle asteroid spd rnd 1 obs in
      (0, obs, k)
    else (tA, obs, 0%nat) in
  let '(tB, obs) :=
    if Rleb (aliInterval d sc) tB then
      let spd := scrollSpeed d sc * 1.12 * (1.0 + (rnd k - 0.5) * 0.2) in
      let '(obs, _) := spawnObstacle alien spd rnd (S k) obs in
      (0, obs)
    else (tB, obs) in
  (mkSpawnTimers tA tB, obs).

(** ** update, part 3: the obstacle loop (lines 220-252) *)

(** Lines 223-227.  The vertical drift reads [o.life] before the line that
    increments it. *)
Definition advance (dt : R) (o : Obstacle) : Obstacle :=
  let x1 := x o - speed o * dt in
  match type o with
  | alien =>
      mkObstacle (type o) x1
        (y o + sin ((life o * 2 + wobblePhase o) * 2.2) * 40 * dt)
        (radius o) (speed o) (wobblePhase o) (life o + dt) (scored o)
  | asteroid =>
      mkObstacle (type o) x1 (y o) (radius o) (speed o) (wobblePhase o)
        (life o) (scored o)
  end.

(** The test of line 229. *)
Definition passes (p : Player) (o : Obstacle) : bool :=
  negb (scored o) && Rltb (x o + radius o) (player_x p - CLOUD_RADIUS * 0.2).

(** The increment of line 231. *)
Definition points (o : Obstacle) : R :=
  match type o with alien => 8 | asteroid => 5 end.

(** The test of line 234. *)
Definition culled (o : Obstacle) : bool := Rltb (x o) (- radius o * 2).

(** The test of lines 239-240. *)
Definition collides (p : Player) (o : Obstacle) : bool :=
  Rltb (length (player_x p - x o) (player_y p - y o))
       (CLOUD_RADIUS + radius o * 0.9).

(** [obstacles.splice(i, 1)] and the write-back of the mutated object
    [obstacles[i]]. *)
Definition splice {A} (i : nat) (l : list A) : list A :=
  firstn i l ++ skipn (S i) l.

Definition store {A} (i : nat) (a : A) (l : list A) : list A :=
  firstn i l ++ a :: skipn (S i) l.

(** How the loop ends: it runs off the low end of the array, it returns from
    inside on a collision, or [obstacles[i]] is [undefined] and reading
    [o.x] throws.  The three values are the array, [scoreRef.current] and
    the React [score]. *)
Inductive LoopResult :=
| Completed (obs : list Obstacle) (sc : R) (ui : Z)
| Collision (obs : list Obstacle) (sc : R) (ui : Z)
| TypeError.

(** [obstacle_loop n] runs the iterations [i = n-1, n-2, ..., 0]. *)
Fixpoint obstacle_loop (n : nat) (dt : R) (p : Player)
    (obs : list Obstacle) (sc : R) (ui : Z) : LoopResult :=
  match n with
  | O => Completed obs sc ui
  | S i =>
      match nth_error obs i with
      | None => TypeError
      | Some o =>
          let o1 := advance dt o in
          let pass := passes p o1 in
          let o2 := if pass then set_obstacle_scored true o1 else o1 in
          let sc2 := if pass then sc + points o1 else sc in
          let ui2 := if pass then Zfloor sc2 else ui in
          let obs2 := store i o2 obs in
          if culled o2 then obstacle_loop i dt p (splice i obs2) sc2 ui2
          else if collides p o2 then Collision obs2 sc2 ui2
          else obstacle_loop i dt p obs2 sc2 ui2
      end
  end.

(** ** update (lines 172-256)

    [None] is an uncaught exception. *)
Definition update (dt : R) (rnd : nat -> R) (st : State) : option State :=
  let p := move_player dt (keysRef st) (pointerRef st) (playerRef st) in
  let st := set_playerRef p st in
  let '(t, obs) :=
    spawn_phase dt rnd (difficultyRef st) (scoreRef st) (spawnTimersRef st)
      (obstaclesRef st) in
  let st := set_spawnTimersRef t st in
  let st := set_obstaclesRef obs st in
  match obstacle_loop (List.length obs) dt p obs (scoreRef st) (score st) with
  | TypeError => None
  | Completed obs' sc ui =>
      Some (setScore ui (set_scoreRef sc (set_obstaclesRef obs' st)))
  | Collision obs' sc ui =>
      let st := setScore ui (set_scoreRef sc (set_obstaclesRef obs' st)) in
      let st := setGameOver true st in
      let st := speak (game_over_text (Zfloor (scoreRef st))) st in
      Some (setGameState menu st)
  end.

(** ** The frame driver (lines 91-101)

    [tick] is the guarded call of lines 94-96; [loop] is the frame callback
    up to the call of [render]. *)
Definition tick (dt : R) (rnd : nat -> R) (st : State) : option State :=
  match gameState st with
  | playing => update dt rnd st
  | menu => Some st
  end.

Definition loop (t : R) (rnd : nat -> R) (st : State) : option State :=
  let dt := Rmin 0.033 ((t - lastTimeRef st) / 1000) in
  tick dt rnd (set_lastTimeRef t st).

(** ** The difficulty picker (lines 513-531)

    The three buttons are part of the overlay that is rendered only under
    [gameState === 'menu']; a click calls [setDifficulty(d)]. *)
Definition click_difficulty (d : Difficulty) (st : State) : State :=
  match gameState st with
  | menu => setDifficulty d st
  | playing => st
  end.

(** ** Phases

    The source has the two values of [gameState] and the flag [gameOver];
    a collision sets [gameOver] and puts [gameState] back to ['menu']. *)
Inductive Phase := Menu | Playing | GameOver.

Definition phase (st : State) : Phase :=
  match gameState st with
  | playing => Playing
  | menu => if gameOver st then GameOver else Menu
  end.

(** ** One iteration of the loop, and the loop as a pass over a list

    [step] is the body of the [for] of line 221 for the object [o]:
    lines 223-227, then 229-233, then 234-237, then 239-251. *)
Inductive StepResult :=
| Removed (sc : R) (ui : Z)                 (* [splice] and [continue] *)
| Kept (o : Obstacle) (sc : R) (ui : Z)     (* falls through to the next [i] *)
| Hit (o : Obstacle) (sc : R) (ui : Z).     (* the [return] of line 250 *)

Definition step (dt : R) (p : Player) (o : Obstacle) (sc : R) (ui : Z)
    : StepResult :=
  let o1 := advance dt o in
  let pass := passes p o1 in
  let o2 := if pass then set_obstacle_scored true o1 else o1 in
  let sc2 := if pass then sc + points o1 else sc in
  let ui2 := if pass then Zfloor sc2 else ui in
  if culled o2 then Removed sc2 ui2
  else if collides p o2 then Hit o2 sc2 ui2
  else Kept o2 sc2 ui2.

(** The objects of [todo] from the newest to the oldest ([todo] lists them
    newest first); [done] are the survivors among the newer ones, in array
    order. *)
Fixpoint pass_newest_first (dt : R) (p : Player) (todo done : list Obstacle)
    (sc : R) (ui : Z) : LoopResult :=
  match todo with
  | [] => Completed done sc ui
  | o :: rest =>
      match step dt p o sc ui with
      | Removed sc' ui' => pass_newest_first dt p rest done sc' ui'
      | Kept o' sc' ui' => pass_newest_first dt p rest (o' :: done) sc' ui'
      | Hit o' sc' ui' => Collision (rev rest ++ o' :: done) sc' ui'
      end
  end.

(** The pass as the specification words it: the objects in spawn order, the
    oldest first.  [done_rev] are the survivors so far, newest first. *)
Fixpoint pass_spawn_order (dt : R) (p : Player) (done_rev todo : list Obstacle)
    (sc : R) (ui : Z) : LoopResult :=
  match todo with
  | [] => Completed (rev done_rev) sc ui
  | o :: rest =>
      match step dt p o sc ui with
      | Removed sc' ui' => pass_spawn_order dt p done_rev rest sc' ui'
      | Kept o' sc' ui' => pass_spawn_order dt p (o' :: done_rev) rest sc' ui'
      | Hit o' sc' ui' => Collision (rev done_rev ++ o' :: rest) sc' ui'
      end
  end.

(** ** Derived notions used by the statements *)

(** The object as lines 223-233 leave it. *)
Definition moved (dt : R) (p : Player) (o : Obstacle) : Obstacle :=
  if passes p (advance dt o) then set_obstacle_scored true (advance dt o)
  else advance dt o.

(** What lines 229-233 add to the score. *)
Definition gained (dt : R) (p : Player) (o : Obstacle) : R :=
  if passes p (advance dt o) then points o else 0.

Definition step_score (r : StepResult) : R :=
  match r with Removed sc _ | Kept _ sc _ | Hit _ sc _ => sc end.

Definition step_ui (r : StepResult) : Z :=
  match r with Removed _ ui | Kept _ _ ui | Hit _ _ ui => ui end.

Definition step_obstacle (r : StepResult) : option Obstacle :=
  match r with Removed _ _ => None | Kept o _ _ | Hit o _ _ => Some o end.

Definition result_score (r : LoopResult) (default : R) : R :=
  match r with Completed _ sc _ | Collision _ sc _ => sc | TypeError => default end.

Fixpoint total_gained (dt : R) (p : Player) (l : list Obstacle) : R :=
  match l with
  | [] => 0
  | o :: rest => gained dt p o + total_gained dt p rest
  end.

(** The objects that a completed pass leaves in the array. *)
Definition stays (dt : R) (o : Obstacle) : bool := negb (culled (advance dt o)).

Definition survivors (dt : R) (p : Player) (l : list Obstacle) : list Obstacle :=
  map (moved dt p) (filter (stays dt) l).

(** The player, the timers and the array with which the obstacle loop of a
    call [update(dt)] starts, and how the loop ends. *)
Definition frame_player (dt : R) (st : State) : Player :=
  move_player dt (keysRef st) (pointerRef st) (playerRef st).

Definition frame_timers (dt : R) (rnd : nat -> R) (st : State) : SpawnTimers :=
  fst (spawn_phase dt rnd (difficultyRef st) (scoreRef st) (spawnTimersRef st)
         (obstaclesRef st)).

Definition frame_obstacles (dt : R) (rnd : nat -> R) (st : State)
    : list Obstacle :=
  snd (spawn_phase dt rnd (difficultyRef st) (scoreRef st) (spawnTimersRef st)
         (obstaclesRef st)).

Definition frame_result (dt : R) (rnd : nat -> R) (st : State) : LoopResult :=
  pass_newest_first dt (frame_player dt st) (rev (frame_obstacles dt rnd st)) []
    (scoreRef st) (score st).

(** What [speak] leaves in the synthesiser's queue. *)
Definition queue_after_speak (text : string) (st : State) : list string :=
  if negb (speechAllowedRef st) || isMutedRef st then speechQueue st
  else if negb (speechSynthesis st) then speechQueue st
  else [text].

(** The player's circle lies inside the field. *)
Definition in_field (p : Player) : Prop :=
  CLOUD_RADIUS <= player_x p <= WIDTH - CLOUD_RADIUS
  /\ CLOUD_RADIUS <= player_y p <= HEIGHT - CLOUD_RADIUS.

(** The distance test of the specification, on the object as given. *)
Definition within_reach (p : Player) (o : Obstacle) : Prop :=
  length (player_x p - x o) (player_y p - y o) < CLOUD_RADIUS + 0.9 * radius o.

(** The contract of [Math.random()]. *)
Definition uniform (rnd : nat -> R) : Prop := forall k, 0 <= rnd k < 1.

(** The loop goes past [o]: it is culled, or it is kept without a hit. *)
Definition no_hit (dt : R) (p : Player) (o : Obstacle) : Prop :=
  culled (advance dt o) = true \/ collides p (advance dt o) = false.

(** ** The event handlers (lines 45-67, 470-502, 518-519)

    Key names are lowered over the ASCII letters; on every key whose
    lowered name is one of the eight names that [update] looks up this is
    the result of [String.prototype.toLowerCase], and the statements below
    use the lowered name only as a name.  [now] is the value that
    [performance.now()] returns to [restart].  The handlers read [gameOver]
    and [gameState] as they were when the handler was installed, that is,
    before the event. *)

Definition lower_ascii (c : ascii) : ascii :=
  let n := nat_of_ascii c in
  if (65 <=? n)%nat && (n <=? 90)%nat then ascii_of_nat (n + 32) else c.

Fixpoint toLowerCase (s : string) : string :=
  match s with
  | EmptyString => EmptyString
  | String c rest => String (lower_ascii c) (toLowerCase rest)
  end.

(** [Set.prototype.add] and [Set.prototype.delete] on the key set. *)
Definition keys_add (k : string) (ks : list string) : list string :=
  if has ks k then ks else ks ++ [k].

Definition keys_delete (k : string) (ks : list string) : list string :=
  filter (fun k' => negb (String.eqb k k')) ks.

Definition start_code (code : string) : bool :=
  String.eqb code "Space" || String.eqb code "Enter".

Definition handleKeyDown (key code : string) (now : R) (st : State) : State :=
  let st1 := set_keysRef (keys_add (toLowerCase key) (keysRef st)) st in
  let st2 := set_speechAllowedRef true st1 in
  let st3 :=
    if gameOver st && start_code code
    then setGameState playing (restart now st2) else st2 in
  match gameState st with
  | menu => if start_code code then startGame now st3 else st3
  | playing => st3
  end.

Definition handleKeyUp (key : string) (st : State) : State :=
  set_keysRef (keys_delete (toLowerCase key) (keysRef st)) st.

Definition onDown (px py : R) (st : State) : State :=
  set_speechAllowedRef true (set_pointerRef (mkPointer true px py) st).

Definition onMove (px py : R) (st : State) : State :=
  if active (pointerRef st)
  then set_pointerRef (mkPointer (active (pointerRef st)) px py) st
  else st.

Definition onUp (st : State) : State :=
  set_pointerRef
    (mkPointer false (pointer_x (pointerRef st)) (pointer_y (pointerRef st))) st.

(** The Start button is part of the menu overlay. *)
Definition click_start (now : R) (st : State) : State :=
  match gameState st with
  | menu => startGame now st
  | playing => st
  end.

(** The Mute button, also part of the menu overlay: [setIsMuted(m => !m)]
    and the copy into [isMutedRef] of line 111. *)
Definition click_mute (st : State) : State :=
  match gameState st with
  | menu => set_isMutedRef (negb (isMutedRef st)) st
  | playing => st
  end.

Inductive Event :=
| KeyDown (key code : string) (now : R)
| KeyUp (key : string)
| PointerDown (px py : R)
| PointerMove (px py : R)
| PointerUp
| ClickStart (now : R)
| ClickMute
| ClickDifficulty (d : Difficulty)
| Frame (t : R) (rnd : nat -> R).

Definition handle (e : Event) (st : State) : option State :=
  match e with
  | KeyDown key code now => Some (handleKeyDown key code now st)
  | KeyUp key => Some (handleKeyUp key st)
  | PointerDown px py => Some (onDown px py st)
  | PointerMove px py => Some (onMove px py st)
  | PointerUp => Some (onUp st)
  | ClickStart now => Some (click_start now st)
  | ClickMute => Some (click_mute st)
  | ClickDifficulty d => Some (click_difficulty d st)
  | Frame t rnd => loop t rnd st
  end.

Definition well_formed (e : Event) : Prop :=
  match e with
  | Frame _ rnd => uniform rnd
  | _ => True
  end.

(** The states of a session: what a sequence of events makes of the
    initial state. *)
Inductive reachable : State -> Prop :=
| reach_init (synth : bool) : reachable (initial_state synth)
| reach_event (e : Event) (st st' : State) :
    reachable st -> well_formed e -> handle e st = Some st' -> reachable st'.

(** What holds of every state of a session. *)
Definition obstacle_ok (o : Obstacle) : Prop := 14 <= radius o.

Definition invariant (st : State) : Prop :=
  in_field (playerRef st)
  /\ Forall obstacle_ok (obstaclesRef st)
  /\ (0 <= score st)%Z
  /\ scoreRef st = IZR (score st)
  /\ (gameState st = playing -> gameOver st = false).

(** ** The alien step as the specification words it

    [age += dt] first, then the drift from the age just advanced. *)
Definition advance_age_first (dt : R) (o : Obstacle) : Obstacle :=
  let x1 := x o - speed o * dt in
  match type o with
  | alien =>
      let age := life o + dt in
      mkObstacle (type o) x1
        (y o + sin ((age * 2 + wobblePhase o) * 2.2) * 40 * dt)
        (radius o) (speed o) (wobblePhase o) age (scored o)
  | asteroid =>
      mkObstacle (type o) x1 (y o) (radius o) (speed o) (wobblePhase o)
        (life o) (scored o)
  end.

(** ** Sample data *)

Module Sample.

Definition dt : R := 0.02.

Definition p : Player := mkPlayer 120 250.

(** An asteroid that ends this tick behind the player, far below:
    [x = 88], right edge at 108 < 116. *)
Definition passer : Obstacle := mkObstacle asteroid 91 400 20 150 0 0 false.
Definition passer' : Obstacle :=
  mkObstacle asteroid (91 - 150 * 0.02) 400 20 150 0 0 true.

(** An asteroid that ends this tick on the player, as in Scenario B of the
    specification: centre at [(130, 250)], 10 away. *)
Definition collider : Obstacle := mkObstacle asteroid 133 250 20 150 0 0 false.
Definition collider' : Obstacle :=
  mkObstacle asteroid (133 - 150 * 0.02) 250 20 150 0 0 false.

(** An asteroid whose right edge ends this tick behind the player's pass
    line (115 < 116) while its circle still overlaps the player's
    (25 < 38). *)
Definition grazer : Obstacle := mkObstacle asteroid 98 250 20 150 0 0 false.

(** An asteroid that has scored and ends this tick at [x = -42], left of
    [-2 * radius = -40]. *)
Definition leaver : Obstacle := mkObstacle asteroid (-39) 250 20 150 0 0 true.

(** An alien as [spawnObstacle] makes it. *)
Definition wobbler : Obstacle := mkObstacle alien 860 100 20 200 0 0 false.

(** A round in progress with the array [obs]: no key held, no pointer,
    timers at 0, speech allowed and available. *)
Definition round (obs : list Obstacle) : State :=
  mkState p [] (mkPointer false 0 0) (mkSpawnTimers 0 0) obs 0 easy 0
    true false 0%Z false playing easy true [] [].

Definition rnd : nat -> R := fun _ => 0.5.

End Sample.

(** ** Canvas sizing (lines 71-83)

    [resize] reads [window.devicePixelRatio] and [window.innerWidth] and
    writes the CSS size of the canvas, its backing-store size and
    [scaleRef.current]; [c] is the canvas as it was.  [dpr || 1] replaces a
    zero ratio by 1.  The DOM setters are part of the model: a negative
    length is not a valid [width] or [height], so the style keeps its value;
    [canvas.width] and [canvas.height] take the number modulo [2^32] and fall
    back to 300 and 150 when that exceeds [2^31 - 1], as it does for a
    negative number.  [scaleRef.current] is computed from [canvas.width] as
    read back. *)





(** ** Pointer coordinates (lines 473-478)

    [rect] is [canvas.getBoundingClientRect()]. *)

Record Rect := mkRect {
  rect_left : R; rect_top : R; rect_width : R; rect_height : R
}.

Definition toVirtual (clientX clientY : R) (rect : Rect) : R * R :=
  (((clientX - rect_left rect) / rect_width rect) * WIDTH,
   ((clientY - rect_top rect) / rect_height rect) * HEIGHT).

(** The [pointerdown] and [pointermove] listeners with their conversion. *)
Definition pointerdown (clientX clientY : R) (rect : Rect) (st : State) : State :=
  let '(vx, vy) := toVirtual clientX clientY rect in onDown vx vy st.

Definition pointermove (clientX clientY : R) (rect : Rect) (st : State) : State :=
  if active (pointerRef st)
  then let '(vx, vy) := toVirtual clientX clientY rect in onMove vx vy st
  else st.

(** ** The synthesiser's timer (lines 405-467)

    Of [startMusic] and [stopMusic] the model keeps [musicStateRef.current]
    and the interval timers: [setInterval] returns the next identifier,
    starting at 1, and [clearInterval] removes one.  [ready] says that an
    audio context exists and that nothing throws before [setInterval]; the
    audio context itself and the notes are left out. *)

Record MusicState := mkMusicState {
  music_playing : bool;          (* [playing] *)
  intervalId : option nat        (* [intervalId], [None] for [null] *)
}.

Record Music := mkMusic {
  musicStateRef : MusicState;
  intervals : list nat;          (* the running interval timers *)
  next_interval : nat            (* what the next [setInterval] returns *)
}.

Definition initial_music : Music := mkMusic (mkMusicState false None) [] 1.

Definition startMusic (ready : bool) (m : Music) : Music :=
  if music_playing (musicStateRef m) then m
  else if negb ready then m
  else
    let id := next_interval m in
    mkMusic (mkMusicState true (Some id)) (id :: intervals m) (S id).

Definition clearInterval (id : nat) (l : list nat) : list nat :=
  filter (fun i => negb (Nat.eqb i id)) l.

Definition stopMusic (m : Music) : Music :=
  let l :=
    match intervalId (musicStateRef m) with
    | Some id => if Nat.eqb id 0 then intervals m else clearInterval id (intervals m)
    | None => intervals m
    end in
  mkMusic (mkMusicState false None) l (next_interval m).

Inductive MusicCall := CallStart (ready : bool) | CallStop.

Definition music_call (c : MusicCall) (m : Music) : Music :=
  match c with
  | CallStart ready => startMusic ready m
  | CallStop => stopMusic m
  end.

(** ** Notions for the properties of a session *)

(** What [spawnObstacle] and the loop keep true of an object. *)
Definition obstacle_wf (o : Obstacle) : Prop :=
  - radius o * 2 <= x o
  /\ match type o with
     | asteroid =>
         14 <= radius o <= 28 /\ 145.35 <= speed o <= 701.25
         /\ 40 <= y o <= 460
     | alien =>
         18 <= radius o <= 26 /\ 162.792 <= speed o <= 753.984
         /\ 0 <= wobblePhase o <= PI * 2
     end.

(** Scores that sums of 5 and 8 can reach. *)
Definition score_form (n : Z) : Prop :=
  exists a b : nat, n = (5 * Z.of_nat a + 8 * Z.of_nat b)%Z.

(** Sessions whose events all satisfy [P]. *)
Inductive reachable_via (P : Event -> Prop) : State -> Prop :=
| via_init (synth : bool) : reachable_via P (initial_state synth)
| via_event (e : Event) (st st' : State) :
    reachable_via P st -> P e -> handle e st = Some st' -> reachable_via P st'.

(** Events other than a key press and a press on the canvas. *)
Definition quiet (e : Event) : Prop :=
  match e with
  | KeyDown _ _ _ | PointerDown _ _ => False
  | _ => True
  end.

(** The objects that [spawnObstacle] pushes, and the two that a call of
    [update] may push: the asteroid is drawn first; the alien's draws start
    at index 4 when an asteroid was spawned in the same call and at 0
    otherwise. *)
Definition new_asteroid (spd : R) (rnd : nat -> R) (k : nat) : Obstacle :=
  mkObstacle asteroid (WIDTH + 40) (rand 40 (HEIGHT - 40) rnd k)
    (rand 14 28 rnd (k + 1)) (spd * rand 0.95 1.25 rnd (k + 2)) 0 0 false.

Definition new_alien (spd : R) (rnd : nat -> R) (k : nat) : Obstacle :=
  mkObstacle alien (WIDTH + 60) (rand 40 (HEIGHT - 40) rnd k)
    (rand 18 26 rnd (k + 1)) (spd * rand 0.95 1.2 rnd (k + 2))
    (rand 0 (PI * 2) rnd (k + 3)) 0 false.

Definition asteroid_due (dt : R) (st : State) : bool :=
  Rleb (astInterval (difficultyRef st) (scoreRef st))
       (asteroidMs (spawnTimersRef st) + dt * 1000).

Definition alien_due (dt : R) (st : State) : bool :=
  Rleb (aliInterval (difficultyRef st) (scoreRef st))
       (alienMs (spawnTimersRef st) + dt * 1000).

Definition frame_asteroid (rnd : nat -> R) (st : State) : Obstacle :=
  new_asteroid
    (scrollSpeed (difficultyRef st) (scoreRef st) * (1.0 + (rnd 0%nat - 0.5) * 0.2))
    rnd 1.

Definition frame_alien (dt : R) (rnd : nat -> R) (st : State) : Obstacle :=
  let k := if asteroid_due dt st then 4%nat else 0%nat in
  new_alien
    (scrollSpeed (difficultyRef st) (scoreRef st) * 1.12
     * (1.0 + (rnd k - 0.5) * 0.2))
    rnd (S k).

(** What the music timer keeps: the one running interval is the one
    that [musicStateRef] records. *)
Definition music_ok (m : Music) : Prop :=
  (1 <= next_interval m)%nat
  /\ ((music_playing (musicStateRef m) = false
       /\ intervalId (musicStateRef m) = None /\ intervals m = [])
      \/ (music_playing (musicStateRef m) = true
          /\ exists id, (1 <= id)%nat /\ intervalId (musicStateRef m) = Some id
                        /\ intervals m = [id])).

(** An object followed through successive iterations of the loop, one per
    tick, each with its own [dt] and player position, for as long as it
    stays in the array: the object as the iterations leave it and the score
    with what it added. *)
Fixpoint track (steps : list (R * Player)) (o : Obstacle) (sc : R)
    : Obstacle * R :=
  match steps with
  | [] => (o, sc)
  | (dt, p) :: rest => track rest (moved dt p o) (sc + gained dt p o)
  end.

(** ** The pass test with the obstacle's radius on both sides

    The wording [x + radius < player.x - radius * 0.2] read with one radius,
    the obstacle's; line 229 has [CLOUD_RADIUS * 0.2] on the right. *)
Definition passes_obstacle_radius (p : Player) (o : Obstacle) : bool :=
  negb (scored o) && Rltb (x o + radius o) (player_x p - radius o * 0.2).

(** An asteroid of radius 14 that ends the tick of [Sample.dt] with its
    right edge at 116.5, between [player.x - 4 = 116] and
    [player.x - 14 * 0.2 = 117.2]. *)
Definition skimmer : Obstacle := mkObstacle asteroid 105.5 400 14 150 0 0 false.

(** The sample round before any key or canvas press: speech is not yet
    allowed. *)
Definition silent_round (obs : list Obstacle) : State :=
  mkState Sample.p [] (mkPointer false 0 0) (mkSpawnTimers 0 0) obs 0 easy 0
    false false 0%Z false playing easy true [] [].

(** * Proofs *)

(** ** Comparisons *)

Lemma Rltb_true (a b : R) : a < b -> Rltb a b = true.
Proof. intros H. unfold Rltb. destruct (Rlt_dec a b); [reflexivity | contradiction]. Qed.

Lemma Rltb_false (a b : R) : b <= a -> Rltb a b = false.
Proof. intros H. unfold Rltb. destruct (Rlt_dec a b); [lra | reflexivity]. Qed.

Lemma Rltb_spec (a b : R) : Rltb a b = true <-> a < b.
Proof.
  unfold Rltb. destruct (Rlt_dec a b); split; intros H; auto; discriminate.
Qed.

Lemma Rleb_true (a b : R) : a <= b -> Rleb a b = true.
Proof. intros H. unfold Rleb. destruct (Rle_dec a b); [reflexivity | contradiction]. Qed.

Lemma Rleb_false (a b : R) : b < a -> Rleb a b = false.
Proof. intros H. unfold Rleb. destruct (Rle_dec a b); [lra | reflexivity]. Qed.

Lemma Rleb_spec (a b : R) : Rleb a b = true <-> a <= b.
Proof.
  unfold Rleb. destruct (Rle_dec a b); split; intros H; auto; discriminate.
Qed.

(** [Math.hypot] against a positive bound, without the square root. *)
Lemma length_lt (dx dy t : R) :
  0 < t -> (length dx dy < t <-> dx * dx + dy * dy < t * t).
Proof.
  intros Ht. unfold length.
  assert (Hs : 0 <= dx * dx + dy * dy) by nra.
  rewrite <- (sqrt_square t) at 1 by lra.
  split; intros H.
  - apply sqrt_lt_0_alt in H. exact H.
  - apply sqrt_lt_1_alt. split; assumption.
Qed.

Lemma length_ge_abs_l (dx dy : R) : dx <= length dx dy.
Proof.
  unfold length.
  destruct (Rle_dec dx 0) as [Hn | Hp].
  - pose proof (sqrt_pos (dx * dx + dy * dy)). lra.
  - rewrite <- (sqrt_square dx) at 1 by lra.
    apply sqrt_le_1_alt. nra.
Qed.

(** ** Lists: the array operations at the boundary of a prefix *)

Lemma nth_error_prefix {A} (l done : list A) (a : A) :
  nth_error ((l ++ [a]) ++ done) (List.length l) = Some a.
Proof.
  rewrite <- app_assoc. simpl.
  rewrite nth_error_app2 by lia.
  rewrite Nat.sub_diag. reflexivity.
Qed.

Lemma firstn_prefix {A} (l rest : list A) :
  firstn (List.length l) (l ++ rest) = l.
Proof.
  rewrite firstn_app, Nat.sub_diag, firstn_all. simpl. apply app_nil_r.
Qed.

Lemma skipn_prefix {A} (l rest : list A) (a : A) :
  skipn (S (List.length l)) (l ++ a :: rest) = rest.
Proof.
  induction l as [| b l IH]; simpl; [reflexivity | exact IH].
Qed.

Lemma store_prefix {A} (l done : list A) (a b : A) :
  store (List.length l) b ((l ++ [a]) ++ done) = l ++ b :: done.
Proof.
  unfold store. rewrite <- app_assoc. cbn [app].
  rewrite firstn_prefix, skipn_prefix. reflexivity.
Qed.

Lemma splice_prefix {A} (l done : list A) (a : A) :
  splice (List.length l) (l ++ a :: done) = l ++ done.
Proof.
  unfold splice. rewrite firstn_prefix, skipn_prefix. reflexivity.
Qed.

(** ** The loop is a pass from the newest object to the oldest *)

Lemma obstacle_loop_prefix (dt : R) (p : Player) (l : list Obstacle) :
  forall (done : list Obstacle) (sc : R) (ui : Z),
    obstacle_loop (List.length l) dt p (l ++ done) sc ui
    = pass_newest_first dt p (rev l) done sc ui.
Proof.
  induction l as [| o l IH] using rev_ind; intros done sc ui.
  - reflexivity.
  - rewrite length_app, Nat.add_comm, rev_app_distr. simpl.
    rewrite nth_error_prefix, store_prefix, splice_prefix.
    unfold step.
    destruct (culled _).
    + apply IH.
    + destruct (collides p _).
      * rewrite rev_involutive. reflexivity.
      * change (l ++ ?a :: done) with (l ++ a :: done). apply IH.
Qed.

Lemma obstacle_loop_pass (dt : R) (p : Player) (obs : list Obstacle)
    (sc : R) (ui : Z) :
  obstacle_loop (List.length obs) dt p obs sc ui
  = pass_newest_first dt p (rev obs) [] sc ui.
Proof.
  rewrite <- (app_nil_r obs) at 2. apply obstacle_loop_prefix.
Qed.

(** The loop never reads past the array. *)
Lemma pass_newest_first_no_error (dt : R) (p : Player) (todo : list Obstacle) :
  forall done sc ui, pass_newest_first dt p todo done sc ui <> TypeError.
Proof.
  induction todo as [| o rest IH]; intros done sc ui; simpl.
  - discriminate.
  - destruct (step dt p o sc ui); [apply IH | apply IH | discriminate].
Qed.

(** ** One iteration *)

Lemma advance_x (dt : R) (o : Obstacle) :
  x (advance dt o) = x o - speed o * dt.
Proof. unfold advance. destruct (type o); reflexivity. Qed.

Lemma advance_radius (dt : R) (o : Obstacle) : radius (advance dt o) = radius o.
Proof. unfold advance. destruct (type o); reflexivity. Qed.

Lemma advance_type (dt : R) (o : Obstacle) : type (advance dt o) = type o.
Proof. unfold advance. destruct (type o); reflexivity. Qed.

Lemma advance_scored (dt : R) (o : Obstacle) : scored (advance dt o) = scored o.
Proof. unfold advance. destruct (type o); reflexivity. Qed.

Lemma advance_speed (dt : R) (o : Obstacle) : speed (advance dt o) = speed o.
Proof. unfold advance. destruct (type o); reflexivity. Qed.

Lemma points_advance (dt : R) (o : Obstacle) : points (advance dt o) = points o.
Proof. unfold points. rewrite advance_type. reflexivity. Qed.

Lemma culled_moved (dt : R) (p : Player) (o : Obstacle) :
  culled (moved dt p o) = culled (advance dt o).
Proof. unfold moved. destruct (passes p _); reflexivity. Qed.

Lemma collides_moved (dt : R) (p : Player) (o : Obstacle) :
  collides p (moved dt p o) = collides p (advance dt o).
Proof. unfold moved. destruct (passes p _); reflexivity. Qed.

(** [step] in terms of the three tests on the advanced object. *)
Lemma step_unfold (dt : R) (p : Player) (o : Obstacle) (sc : R) (ui : Z) :
  step dt p o sc ui =
    let sc2 := sc + gained dt p o in
    let ui2 := if passes p (advance dt o) then Zfloor sc2 else ui in
    if culled (advance dt o) then Removed sc2 ui2
    else if collides p (advance dt o) then Hit (moved dt p o) sc2 ui2
    else Kept (moved dt p o) sc2 ui2.
Proof.
  unfold step, moved, gained. rewrite points_advance.
  destruct (passes p (advance dt o)); cbv zeta.
  - reflexivity.
  - replace (sc + 0) with sc by lra. reflexivity.
Qed.

Lemma step_score_gained (dt : R) (p : Player) (o : Obstacle) (sc : R) (ui : Z) :
  step_score (step dt p o sc ui) = sc + gained dt p o.
Proof.
  rewrite step_unfold. cbv zeta.
  destruct (culled _); [reflexivity |]. destruct (collides p _); reflexivity.
Qed.

Lemma points_nonneg (o : Obstacle) : 0 <= points o.
Proof. unfold points. destruct (type o); lra. Qed.

Lemma gained_nonneg (dt : R) (p : Player) (o : Obstacle) : 0 <= gained dt p o.
Proof.
  unfold gained. destruct (passes p _); [apply points_nonneg | lra].
Qed.

(** ** The whole pass: scores and survivors *)

Lemma total_gained_nonneg (dt : R) (p : Player) (l : list Obstacle) :
  0 <= total_gained dt p l.
Proof.
  induction l as [| o l IH]; simpl; [lra |].
  pose proof (gained_nonneg dt p o). lra.
Qed.

Lemma total_gained_app (dt : R) (p : Player) (l1 l2 : list Obstacle) :
  total_gained dt p (l1 ++ l2) = total_gained dt p l1 + total_gained dt p l2.
Proof. induction l1 as [| o l1 IH]; simpl; [lra | rewrite IH; lra]. Qed.

Lemma total_gained_rev (dt : R) (p : Player) (l : list Obstacle) :
  total_gained dt p (rev l) = total_gained dt p l.
Proof.
  induction l as [| o l IH]; simpl; [reflexivity |].
  rewrite total_gained_app, IH. simpl. lra.
Qed.

Lemma stays_culled (dt : R) (o : Obstacle) :
  culled (advance dt o) = true -> stays dt o = false.
Proof. intros H. unfold stays. rewrite H. reflexivity. Qed.

Lemma stays_not_culled (dt : R) (o : Obstacle) :
  culled (advance dt o) = false -> stays dt o = true.
Proof. intros H. unfold stays. rewrite H. reflexivity. Qed.

Lemma survivors_snoc (dt : R) (p : Player) (l : list Obstacle) (o : Obstacle) :
  survivors dt p (l ++ [o])
  = survivors dt p l ++ (if stays dt o then [moved dt p o] else []).
Proof.
  unfold survivors. rewrite filter_app, map_app. cbn [filter].
  destruct (stays dt o); reflexivity.
Qed.

Lemma pass_completed (dt : R) (p : Player) (todo : list Obstacle) :
  forall done sc ui obs' sc' ui',
    pass_newest_first dt p todo done sc ui = Completed obs' sc' ui' ->
    obs' = survivors dt p (rev todo) ++ done
    /\ sc' = sc + total_gained dt p todo
    /\ Forall (fun o => collides p (advance dt o) = false) (filter (stays dt) todo).
Proof.
  induction todo as [| o rest IH]; intros done sc ui obs' sc' ui' H;
    cbn [pass_newest_first] in H.
  - inversion H; subst. cbn. repeat split; [lra | constructor].
  - rewrite step_unfold in H. cbv zeta in H.
    cbn [rev filter total_gained]. rewrite survivors_snoc.
    destruct (culled (advance dt o)) eqn:Hc.
    + rewrite (stays_culled _ _ Hc).
      apply IH in H. destruct H as (H1 & H2 & H3).
      repeat split; [rewrite app_nil_r; exact H1 | lra | exact H3].
    + rewrite (stays_not_culled _ _ Hc).
      destruct (collides p (advance dt o)) eqn:Hh; [discriminate |].
      apply IH in H. destruct H as (H1 & H2 & H3).
      repeat split.
      * rewrite <- app_assoc. exact H1.
      * lra.
      * constructor; assumption.
Qed.

(** A pass that ends in a collision: the newer objects [newer] were all
    processed without a hit, [o] hit, and the older ones were not touched. *)
Lemma pass_collision (dt : R) (p : Player) (todo : list Obstacle) :
  forall done sc ui obs' sc' ui',
    pass_newest_first dt p todo done sc ui = Collision obs' sc' ui' ->
    exists newer o older,
      todo = newer ++ o :: older
      /\ Forall (fun o => collides p (advance dt o) = false) (filter (stays dt) newer)
      /\ culled (advance dt o) = false
      /\ collides p (advance dt o) = true
      /\ obs' = rev older ++ moved dt p o :: survivors dt p (rev newer) ++ done
      /\ sc' = sc + total_gained dt p newer + gained dt p o.
Proof.
  induction todo as [| a rest IH]; intros done sc ui obs' sc' ui' H;
    cbn [pass_newest_first] in H.
  - discriminate.
  - rewrite step_unfold in H. cbv zeta in H.
    destruct (culled (advance dt a)) eqn:Hc.
    + apply IH in H. destruct H as (newer & o & older & E & F & C1 & C2 & Eo & Es).
      exists (a :: newer), o, older. subst rest.
      cbn [rev filter total_gained]. rewrite survivors_snoc.
      rewrite (stays_culled _ _ Hc), app_nil_r.
      repeat split; try assumption. lra.
    + destruct (collides p (advance dt a)) eqn:Hh.
      * inversion H; subst. exists [], a, rest. cbn.
        repeat split; try assumption; [constructor | lra].
      * apply IH in H.
        destruct H as (newer & o & older & E & F & C1 & C2 & Eo & Es).
        exists (a :: newer), o, older. subst rest.
        cbn [rev filter total_gained]. rewrite survivors_snoc.
        rewrite (stays_not_culled _ _ Hc).
        repeat split; try assumption.
        -- constructor; assumption.
        -- rewrite Eo, <- !app_assoc. reflexivity.
        -- lra.
Qed.

(** The converse: how a pass over [newer ++ o :: older] runs. *)
Lemma pass_app_completed (dt : R) (p : Player) (l1 l2 : list Obstacle) :
  forall done sc ui obs1 sc1 ui1,
    pass_newest_first dt p l1 done sc ui = Completed obs1 sc1 ui1 ->
    pass_newest_first dt p (l1 ++ l2) done sc ui
    = pass_newest_first dt p l2 obs1 sc1 ui1.
Proof.
  induction l1 as [| a l1 IH]; intros done sc ui obs1 sc1 ui1 H; simpl in *.
  - inversion H; subst. reflexivity.
  - destruct (step dt p a sc ui); try discriminate; eapply IH; eassumption.
Qed.

Lemma pass_score_le (dt : R) (p : Player) (todo : list Obstacle) :
  forall done sc ui,
    sc <= result_score (pass_newest_first dt p todo done sc ui) sc.
Proof.
  intros done sc ui.
  destruct (pass_newest_first dt p todo done sc ui) as [o s u | o s u |] eqn:E;
    simpl; [| | lra].
  - apply pass_completed in E. destruct E as (_ & E & _).
    pose proof (total_gained_nonneg dt p todo). lra.
  - apply pass_collision in E.
    destruct E as (newer & a & older & _ & _ & _ & _ & _ & E).
    pose proof (total_gained_nonneg dt p newer).
    pose proof (gained_nonneg dt p a). lra.
Qed.

(** ** update as a whole *)

Lemma update_spec (dt : R) (rnd : nat -> R) (st : State) :
  exists st',
    update dt rnd st = Some st'
    /\ playerRef st' = frame_player dt st
    /\ spawnTimersRef st' = frame_timers dt rnd st
    /\ difficulty st' = difficulty st
    /\ difficultyRef st' = difficultyRef st
    /\ keysRef st' = keysRef st
    /\ pointerRef st' = pointerRef st
    /\ lastTimeRef st' = lastTimeRef st
    /\ match frame_result dt rnd st with
       | Completed obs sc ui =>
           obstaclesRef st' = obs /\ scoreRef st' = sc /\ score st' = ui
           /\ gameOver st' = gameOver st /\ gameState st' = gameState st
           /\ speakCalls st' = speakCalls st
           /\ speechQueue st' = speechQueue st
       | Collision obs sc ui =>
           obstaclesRef st' = obs /\ scoreRef st' = sc /\ score st' = ui
           /\ gameOver st' = true /\ gameState st' = menu
           /\ speakCalls st' = game_over_text (Zfloor sc) :: speakCalls st
           /\ speechQueue st' = queue_after_speak (game_over_text (Zfloor sc)) st
       | TypeError => False
       end.
Proof.
  unfold update, frame_result, frame_obstacles, frame_timers, frame_player.
  destruct (spawn_phase dt rnd _ _ _ _) as [t obs] eqn:Esp.
  cbn [fst snd set_playerRef set_spawnTimersRef set_obstaclesRef scoreRef score
       difficultyRef spawnTimersRef obstaclesRef].
  rewrite obstacle_loop_pass.
  pose proof (pass_newest_first_no_error dt
                (move_player dt (keysRef st) (pointerRef st) (playerRef st))
                (rev obs) [] (scoreRef st) (score st)) as Hne.
  destruct (pass_newest_first _ _ _ _ _ _) as [obs' sc ui | obs' sc ui |].
  - eexists. split; [reflexivity |]. cbn. repeat split; reflexivity.
  - eexists. split; [reflexivity |].
    unfold speak, queue_after_speak. cbn.
    destruct (negb (speechAllowedRef st) || isMutedRef st);
      [cbn; repeat split; reflexivity |].
    destruct (negb (speechSynthesis st)); cbn; repeat split; reflexivity.
  - contradiction.
Qed.

(** [update] returns: the loop never indexes outside the array. *)
Lemma update_total (dt : R) (rnd : nat -> R) (st : State) :
  exists st', update dt rnd st = Some st'.
Proof.
  destruct (update_spec dt rnd st) as (st' & H & _). exists st'. exact H.
Qed.

(** ** Deciding the three tests on given numbers *)

Lemma passes_true (p : Player) (o : Obstacle) :
  scored o = false -> x o + radius o < player_x p - CLOUD_RADIUS * 0.2 ->
  passes p o = true.
Proof. intros Hs H. unfold passes. rewrite Hs, Rltb_true by exact H. reflexivity. Qed.

Lemma passes_false (p : Player) (o : Obstacle) :
  scored o = true \/ player_x p - CLOUD_RADIUS * 0.2 <= x o + radius o ->
  passes p o = false.
Proof.
  intros [Hs | H]; unfold passes.
  - rewrite Hs. reflexivity.
  - rewrite Rltb_false by exact H. apply andb_false_r.
Qed.

Lemma culled_true (o : Obstacle) : x o < - radius o * 2 -> culled o = true.
Proof. apply Rltb_true. Qed.

Lemma culled_false (o : Obstacle) : - radius o * 2 <= x o -> culled o = false.
Proof. apply Rltb_false. Qed.

Lemma collides_true (p : Player) (o : Obstacle) :
  0 < CLOUD_RADIUS + radius o * 0.9 ->
  (player_x p - x o) * (player_x p - x o) + (player_y p - y o) * (player_y p - y o)
  < (CLOUD_RADIUS + radius o * 0.9) * (CLOUD_RADIUS + radius o * 0.9) ->
  collides p o = true.
Proof.
  intros Ht H. apply Rltb_true. apply length_lt; assumption.
Qed.

Lemma collides_false (p : Player) (o : Obstacle) :
  0 < CLOUD_RADIUS + radius o * 0.9 ->
  (CLOUD_RADIUS + radius o * 0.9) * (CLOUD_RADIUS + radius o * 0.9)
  <= (player_x p - x o) * (player_x p - x o) + (player_y p - y o) * (player_y p - y o) ->
  collides p o = false.
Proof.
  intros Ht H. apply Rltb_false. apply Rnot_lt_le. intros Hlt.
  apply length_lt in Hlt; [lra | exact Ht].
Qed.

Ltac fields :=
  cbn [type x y radius speed wobblePhase life scored player_x player_y
       advance set_obstacle_scored points];
  unfold CLOUD_RADIUS, WIDTH, HEIGHT.

Ltac by_numbers := fields; first [reflexivity | lra | nra].

(** Evaluates [step] (through [step_unfold]) on an object given by its
    numbers. *)
Ltac run_step :=
  rewrite step_unfold; unfold moved, gained; cbv zeta;
  repeat match goal with
  | |- context [passes ?p ?o] =>
      first [ rewrite (passes_true p o) by by_numbers
            | rewrite (passes_false p o) by (first [left; by_numbers | right; by_numbers]) ]
  | |- context [culled ?o] =>
      first [ rewrite (culled_true o) by by_numbers
            | rewrite (culled_false o) by by_numbers ]
  | |- context [collides ?p ?o] =>
      first [ rewrite (collides_true p o) by by_numbers
            | rewrite (collides_false p o) by by_numbers ]
  end;
  fields.

(** ** The player stays in the field *)

Lemma clamp_bounds (lo hi v : R) : lo <= hi -> lo <= Rmax lo (Rmin hi v) <= hi.
Proof.
  intros H. split.
  - apply Rmax_l.
  - apply Rmax_lub; [exact H | apply Rmin_l].
Qed.

Lemma move_player_in_field (dt : R) (ks : list string) (ptr : Pointer)
    (p : Player) :
  in_field (move_player dt ks ptr p).
Proof.
  unfold move_player, in_field.
  destruct (if active ptr then _ else _) as [px py].
  cbn [player_x player_y].
  split; apply clamp_bounds; unfold WIDTH, HEIGHT, CLOUD_RADIUS; lra.
Qed.

Lemma in_field_numbers (p : Player) :
  in_field p <-> (20 <= player_x p <= 780 /\ 20 <= player_y p <= 480).
Proof. unfold in_field, WIDTH, HEIGHT, CLOUD_RADIUS. split; intros H; lra. Qed.

(** ** Spawned objects have the radii of lines 265 and 274 *)

Lemma rand_bounds (lo hi : R) (rnd : nat -> R) (k : nat) :
  uniform rnd -> lo <= hi -> lo <= rand lo hi rnd k <= hi.
Proof.
  intros U H. unfold rand. specialize (U k). nra.
Qed.

Lemma spawnObstacle_ok (ty : ObstacleType) (spd : R) (rnd : nat -> R) (k : nat)
    (obs : list Obstacle) :
  uniform rnd -> Forall obstacle_ok obs ->
  Forall obstacle_ok (fst (spawnObstacle ty spd rnd k obs)).
Proof.
  intros U F. unfold spawnObstacle.
  destruct ty; cbn [fst]; apply Forall_app; split; try exact F;
    (constructor; [| apply Forall_nil]); unfold obstacle_ok; cbn [radius].
  - pose proof (rand_bounds 14 28 rnd (k + 1) U ltac:(lra)). lra.
  - pose proof (rand_bounds 18 26 rnd (k + 1) U ltac:(lra)). lra.
Qed.

Lemma spawn_phase_ok (dt : R) (rnd : nat -> R) (d : Difficulty) (sc : R)
    (t : SpawnTimers) (obs : list Obstacle) :
  uniform rnd -> Forall obstacle_ok obs ->
  Forall obstacle_ok (snd (spawn_phase dt rnd d sc t obs)).
Proof.
  intros U F. unfold spawn_phase.
  destruct (Rleb (astInterval d sc) _).
  - pose proof (spawnObstacle_ok asteroid
                  (scrollSpeed d sc * (1.0 + (rnd 0%nat - 0.5) * 0.2))
                  rnd 1 obs U F) as F1.
    destruct (spawnObstacle asteroid _ rnd 1 obs) as [obs1 k1].
    cbn [fst] in F1.
    destruct (Rleb (aliInterval d sc) _); [| exact F1].
    pose proof (spawnObstacle_ok alien
                  (scrollSpeed d sc * 1.12 * (1.0 + (rnd k1 - 0.5) * 0.2))
                  rnd (S k1) obs1 U F1) as F2.
    destruct (spawnObstacle alien _ rnd (S k1) obs1) as [obs2 k2].
    exact F2.
  - destruct (Rleb (aliInterval d sc) _); [| exact F].
    pose proof (spawnObstacle_ok alien
                  (scrollSpeed d sc * 1.12 * (1.0 + (rnd 0%nat - 0.5) * 0.2))
                  rnd 1 obs U F) as F2.
    destruct (spawnObstacle alien _ rnd 1 obs) as [obs2 k2].
    exact F2.
Qed.

(** ** The loop keeps the radii and keeps the score an integer *)

Lemma moved_radius (dt : R) (p : Player) (o : Obstacle) :
  radius (moved dt p o) = radius o.
Proof.
  unfold moved. destruct (passes p _); cbn [set_obstacle_scored radius];
    apply advance_radius.
Qed.

Lemma survivors_ok (dt : R) (p : Player) (l : list Obstacle) :
  Forall obstacle_ok l -> Forall obstacle_ok (survivors dt p l).
Proof.
  intros F. unfold survivors. apply Forall_map.
  apply Forall_forall. intros o Hin. apply filter_In in Hin.
  unfold obstacle_ok. rewrite moved_radius.
  rewrite Forall_forall in F. apply F. tauto.
Qed.

Lemma pass_ok (dt : R) (p : Player) (todo done : list Obstacle) (sc : R) (ui : Z) :
  Forall obstacle_ok todo -> Forall obstacle_ok done ->
  match pass_newest_first dt p todo done sc ui with
  | Completed obs' _ _ | Collision obs' _ _ => Forall obstacle_ok obs'
  | TypeError => True
  end.
Proof.
  intros Ft Fd.
  destruct (pass_newest_first dt p todo done sc ui) as [o s u | o s u |] eqn:E;
    [| | exact I].
  - apply pass_completed in E. destruct E as (-> & _ & _).
    apply Forall_app. split; [| exact Fd].
    apply survivors_ok. apply Forall_rev. exact Ft.
  - apply pass_collision in E.
    destruct E as (newer & a & older & -> & _ & _ & _ & -> & _).
    apply Forall_app in Ft. destruct Ft as [Fn Fo].
    inversion Fo as [| ? ? Ha Fo']; subst.
    apply Forall_app. split; [apply Forall_rev; exact Fo' |].
    constructor.
    + unfold obstacle_ok. rewrite moved_radius. exact Ha.
    + apply Forall_app. split; [| exact Fd].
      apply survivors_ok. apply Forall_rev. exact Fn.
Qed.

Lemma step_integral (dt : R) (p : Player) (o : Obstacle) (n : Z) :
  step_score (step dt p o (IZR n) n) = IZR (step_ui (step dt p o (IZR n) n))
  /\ (n <= step_ui (step dt p o (IZR n) n))%Z.
Proof.
  rewrite step_unfold. cbv zeta. unfold gained.
  assert (Hp : points o = 8 /\ Zfloor (IZR n + points o) = (n + 8)%Z
               \/ points o = 5 /\ Zfloor (IZR n + points o) = (n + 5)%Z).
  { unfold points. destruct (type o); [right | left]; split; try reflexivity.
    - rewrite <- plus_IZR. apply ZfloorZ.
    - rewrite <- plus_IZR. apply ZfloorZ. }
  destruct (passes p (advance dt o)).
  - destruct Hp as [[Hp Hf] | [Hp Hf]]; rewrite Hf, Hp;
      destruct (culled _); try destruct (collides p _);
      cbn [step_score step_ui]; rewrite plus_IZR; split; try reflexivity; lia.
  - replace (IZR n + 0) with (IZR n) by lra.
    destruct (culled _); try destruct (collides p _);
      cbn [step_score step_ui]; split; try reflexivity; lia.
Qed.

Lemma pass_integral (dt : R) (p : Player) (todo : list Obstacle) :
  forall (done : list Obstacle) (n : Z),
    match pass_newest_first dt p todo done (IZR n) n with
    | Completed _ sc' ui' | Collision _ sc' ui' => sc' = IZR ui' /\ (n <= ui')%Z
    | TypeError => True
    end.
Proof.
  induction todo as [| o rest IH]; intros done n; cbn [pass_newest_first].
  - split; [reflexivity | lia].
  - pose proof (step_integral dt p o n) as [Hs Hu].
    destruct (step dt p o (IZR n) n) as [s u | o' s u | o' s u];
      cbn [step_score step_ui] in Hs, Hu; subst s.
    + specialize (IH done u).
      destruct (pass_newest_first dt p rest done (IZR u) u); try exact I;
        destruct IH; split; try assumption; lia.
    + specialize (IH (o' :: done) u).
      destruct (pass_newest_first dt p rest (o' :: done) (IZR u) u); try exact I;
        destruct IH; split; try assumption; lia.
    + split; [reflexivity | exact Hu].
Qed.

(** ** The invariant of a session *)

Lemma initial_player_in_field : in_field (mkPlayer 120 (HEIGHT / 2)).
Proof. unfold in_field, WIDTH, HEIGHT, CLOUD_RADIUS. cbn [player_x player_y]. lra. Qed.

Lemma invariant_fresh (st : State) :
  playerRef st = mkPlayer 120 (HEIGHT / 2) -> obstaclesRef st = [] ->
  score st = 0%Z -> scoreRef st = 0 -> gameOver st = false ->
  invariant st.
Proof.
  intros Hp Ho Hs Hr Hg. unfold invariant. rewrite Hp, Ho, Hs, Hr, Hg.
  split; [apply initial_player_in_field |].
  split; [apply Forall_nil |].
  split; [lia |].
  split; reflexivity.
Qed.

Lemma invariant_initial (synth : bool) : invariant (initial_state synth).
Proof. apply invariant_fresh; reflexivity. Qed.

Lemma invariant_restart (now : R) (st : State) : invariant (restart now st).
Proof. apply invariant_fresh; reflexivity. Qed.

Lemma invariant_startGame (now : R) (st : State) : invariant (startGame now st).
Proof. apply invariant_fresh; reflexivity. Qed.

Lemma invariant_update (dt : R) (rnd : nat -> R) (st st' : State) :
  uniform rnd -> invariant st -> update dt rnd st = Some st' -> invariant st'.
Proof.
  intros U (Hp & Ho & Hn & Hs & Hg) E.
  destruct (update_spec dt rnd st) as (st1 & E1 & Ep & _ & _ & _ & _ & _ & _ & Hr).
  rewrite E in E1. inversion E1; subst st1. clear E1.
  unfold frame_result in Hr.
  pose proof (pass_ok dt (frame_player dt st) (rev (frame_obstacles dt rnd st)) []
                (scoreRef st) (score st)) as Hok.
  pose proof (pass_integral dt (frame_player dt st)
                (rev (frame_obstacles dt rnd st)) [] (score st)) as Hint.
  rewrite <- Hs in Hint.
  assert (Fsp : Forall obstacle_ok (rev (frame_obstacles dt rnd st))).
  { apply Forall_rev. apply spawn_phase_ok; assumption. }
  specialize (Hok Fsp (Forall_nil _)).
  unfold invariant. rewrite Ep.
  split; [apply move_player_in_field |].
  destruct (pass_newest_first _ _ _ _ _ _) as [obs sc ui | obs sc ui |];
    [| | contradiction].
  - destruct Hr as (-> & -> & -> & Hgo & Hgs & _).
    destruct Hint as [Hi Hle].
    repeat split; try assumption; try lia.
    rewrite Hgo, Hgs. exact Hg.
  - destruct Hr as (-> & -> & -> & Hgo & Hgs & _).
    destruct Hint as [Hi Hle].
    repeat split; try assumption; try lia.
    rewrite Hgs. intros H. discriminate.
Qed.

Lemma invariant_tick (dt : R) (rnd : nat -> R) (st st' : State) :
  uniform rnd -> invariant st -> tick dt rnd st = Some st' -> invariant st'.
Proof.
  intros U Hi E. unfold tick in E.
  destruct (gameState st) eqn:G.
  - inversion E; subst. exact Hi.
  - eapply invariant_update; eassumption.
Qed.

Lemma invariant_set_lastTimeRef (t : R) (st : State) :
  invariant st -> invariant (set_lastTimeRef t st).
Proof. intros H. exact H. Qed.

Lemma invariant_handle (e : Event) (st st' : State) :
  well_formed e -> invariant st -> handle e st = Some st' -> invariant st'.
Proof.
  intros W Hi E. destruct e; cbn [handle well_formed] in *;
    try (inversion E; subst st'; clear E).
  - (* keydown *)
    unfold handleKeyDown.
    destruct (gameState st) eqn:G.
    + destruct (start_code code); [apply invariant_startGame |].
      rewrite andb_false_r. exact Hi.
    + destruct (gameOver st && start_code code) eqn:B; [| exact Hi].
      apply invariant_fresh; reflexivity.
  - exact Hi.
  - exact Hi.
  - unfold onMove. destruct (active (pointerRef st)); exact Hi.
  - exact Hi.
  - unfold click_start. destruct (gameState st); [apply invariant_startGame | exact Hi].
  - unfold click_mute. destruct (gameState st); exact Hi.
  - unfold click_difficulty. destruct (gameState st); exact Hi.
  - unfold loop in E. eapply invariant_tick; [exact W | | exact E].
    apply invariant_set_lastTimeRef. exact Hi.
Qed.

Lemma reachable_invariant (st : State) : reachable st -> invariant st.
Proof.
  induction 1 as [synth | e st st' _ IH W E].
  - apply invariant_initial.
  - eapply invariant_handle; eassumption.
Qed.

(** ** The sample data, evaluated *)

Lemma interval_floors (d : Difficulty) (sc : R) :
  baseAst d * 0.55 <= astInterval d sc /\ baseAli d * 0.6 <= aliInterval d sc.
Proof. unfold astInterval, aliInterval. split; apply Rmax_l. Qed.

Lemma sample_frame_player (obs : list Obstacle) :
  frame_player Sample.dt (Sample.round obs) = Sample.p.
Proof.
  unfold frame_player, move_player, Sample.round, Sample.p, Sample.dt.
  cbn [keysRef pointerRef playerRef active player_x player_y].
  unfold horizontal, vertical, has. cbn [existsb orb].
  unfold WIDTH, HEIGHT, CLOUD_RADIUS, PLAYER_SPEED.
  rewrite !Rmin_right by lra.
  rewrite !Rmax_right by lra.
  f_equal; lra.
Qed.

Lemma sample_spawn_phase (obs : list Obstacle) :
  spawn_phase Sample.dt Sample.rnd easy 0 (mkSpawnTimers 0 0) obs
  = (mkSpawnTimers (0 + 0.02 * 1000) (0 + 0.02 * 1000), obs).
Proof.
  unfold spawn_phase, Sample.dt. cbn [asteroidMs alienMs].
  pose proof (interval_floors easy 0) as [Ha Hb]. cbn [baseAst baseAli] in Ha, Hb.
  rewrite (Rleb_false (astInterval easy 0)) by lra.
  rewrite (Rleb_false (aliInterval easy 0)) by lra.
  reflexivity.
Qed.

Lemma sample_frame_obstacles (obs : list Obstacle) :
  frame_obstacles Sample.dt Sample.rnd (Sample.round obs) = obs.
Proof.
  unfold frame_obstacles, Sample.round.
  cbn [difficultyRef scoreRef spawnTimersRef obstaclesRef].
  rewrite sample_spawn_phase. reflexivity.
Qed.

Lemma sample_frame_result (obs : list Obstacle) :
  frame_result Sample.dt Sample.rnd (Sample.round obs)
  = pass_newest_first Sample.dt Sample.p (rev obs) [] 0 0.
Proof.
  unfold frame_result. rewrite sample_frame_player, sample_frame_obstacles.
  reflexivity.
Qed.

Lemma sample_uniform : uniform Sample.rnd.
Proof. intros k. unfold Sample.rnd. lra. Qed.

Lemma step_passer (sc : R) (ui : Z) :
  step Sample.dt Sample.p Sample.passer sc ui
  = Kept Sample.passer' (sc + 5) (Zfloor (sc + 5)).
Proof. unfold Sample.dt, Sample.p, Sample.passer. run_step. reflexivity. Qed.

Lemma step_collider (sc : R) (ui : Z) :
  step Sample.dt Sample.p Sample.collider sc ui
  = Hit Sample.collider' (sc + 0) ui.
Proof. unfold Sample.dt, Sample.p, Sample.collider. run_step. reflexivity. Qed.

(** ** Reach and cull *)

Lemma collides_within_reach (p : Player) (o : Obstacle) :
  collides p o = true <-> within_reach p o.
Proof.
  unfold collides, within_reach. rewrite Rltb_spec.
  replace (0.9 * radius o) with (radius o * 0.9) by lra. tauto.
Qed.

Lemma collides_false_iff (p : Player) (o : Obstacle) :
  collides p o = false <-> ~ within_reach p o.
Proof.
  rewrite <- collides_within_reach. destruct (collides p o); split; intros H;
    try reflexivity; try discriminate; try (intros H'; discriminate).
  exfalso. apply H. reflexivity.
Qed.

(** An object left of [-2 * radius] is out of reach of a player in the
    field. *)
Lemma culled_out_of_reach (p : Player) (o : Obstacle) :
  in_field p -> 0 <= radius o -> culled o = true -> ~ within_reach p o.
Proof.
  intros [[Hx _] _] Hr Hc Hw.
  apply Rltb_spec in Hc. unfold within_reach in Hw.
  pose proof (length_ge_abs_l (player_x p - x o) (player_y p - y o)).
  unfold CLOUD_RADIUS in *. lra.
Qed.

(** ** Passes without a hit, and the first hit *)

Lemma pass_no_hit (dt : R) (p : Player) (todo : list Obstacle) :
  Forall (no_hit dt p) todo ->
  forall done sc ui, exists ui',
    pass_newest_first dt p todo done sc ui
    = Completed (survivors dt p (rev todo) ++ done) (sc + total_gained dt p todo) ui'.
Proof.
  induction 1 as [| o rest Ho _ IH]; intros done sc ui.
  - exists ui. cbn. f_equal. lra.
  - cbn [pass_newest_first rev total_gained].
    rewrite step_unfold, survivors_snoc. cbv zeta.
    destruct (culled (advance dt o)) eqn:Hc.
    + rewrite (stays_culled _ _ Hc), app_nil_r.
      destruct (IH done (sc + gained dt p o)
                  (if passes p (advance dt o)
                   then Zfloor (sc + gained dt p o) else ui)) as [ui' E].
      exists ui'. rewrite E. f_equal. lra.
    + rewrite (stays_not_culled _ _ Hc).
      destruct Ho as [Ho | Ho]; [congruence |]. rewrite Ho.
      destruct (IH (moved dt p o :: done) (sc + gained dt p o)
                  (if passes p (advance dt o)
                   then Zfloor (sc + gained dt p o) else ui)) as [ui' E].
      exists ui'. rewrite E. rewrite <- app_assoc. f_equal. lra.
Qed.

Lemma pass_first_hit (dt : R) (p : Player) (older newer : list Obstacle)
    (o : Obstacle) (sc : R) (ui : Z) :
  Forall (no_hit dt p) newer ->
  culled (advance dt o) = false -> collides p (advance dt o) = true ->
  exists ui',
    pass_newest_first dt p (rev (older ++ o :: newer)) [] sc ui
    = Collision (older ++ moved dt p o :: survivors dt p newer)
        (sc + total_gained dt p newer + gained dt p o) ui'.
Proof.
  intros Fn Hc Hh.
  rewrite rev_app_distr. cbn [rev]. rewrite <- app_assoc. cbn [app].
  apply Forall_rev in Fn.
  destruct (pass_no_hit dt p (rev newer) Fn [] sc ui) as [ui1 E1].
  rewrite (pass_app_completed _ _ _ _ _ _ _ _ _ _ E1).
  cbn [pass_newest_first]. rewrite step_unfold. cbv zeta. rewrite Hc, Hh.
  rewrite !rev_involutive, app_nil_r, total_gained_rev.
  eexists. reflexivity.
Qed.

Lemma update_first_hit (dt : R) (rnd : nat -> R) (st : State)
    (older newer : list Obstacle) (o : Obstacle) :
  frame_obstacles dt rnd st = older ++ o :: newer ->
  Forall (no_hit dt (frame_player dt st)) newer ->
  culled (advance dt o) = false ->
  collides (frame_player dt st) (advance dt o) = true ->
  exists st',
    update dt rnd st = Some st'
    /\ obstaclesRef st'
       = older ++ moved dt (frame_player dt st) o
           :: survivors dt (frame_player dt st) newer
    /\ scoreRef st'
       = scoreRef st + total_gained dt (frame_player dt st) newer
         + gained dt (frame_player dt st) o
    /\ gameOver st' = true
    /\ gameState st' = menu
    /\ speakCalls st' = game_over_text (Zfloor (scoreRef st')) :: speakCalls st
    /\ speechQueue st' = queue_after_speak (game_over_text (Zfloor (scoreRef st'))) st.
Proof.
  intros Eo Fn Hc Hh.
  destruct (update_spec dt rnd st) as (st' & E & _ & _ & _ & _ & _ & _ & _ & Hr).
  exists st'. split; [exact E |].
  unfold frame_result in Hr. rewrite Eo in Hr.
  destruct (pass_first_hit dt (frame_player dt st) older newer o
              (scoreRef st) (score st) Fn Hc Hh) as [ui' Ep].
  rewrite Ep in Hr.
  destruct Hr as (H1 & H2 & _ & H4 & H5 & H6 & H7).
  rewrite H2. repeat split; assumption.
Qed.

(** A pass that ends in a collision, read on the array. *)
Lemma pass_collision_array (dt : R) (p : Player) (obs obs' : list Obstacle)
    (sc sc' : R) (ui ui' : Z) :
  pass_newest_first dt p (rev obs) [] sc ui = Collision obs' sc' ui' ->
  exists older o newer,
    obs = older ++ o :: newer
    /\ Forall (no_hit dt p) newer
    /\ culled (advance dt o) = false
    /\ collides p (advance dt o) = true
    /\ obs' = older ++ moved dt p o :: survivors dt p newer
    /\ sc' = sc + total_gained dt p newer + gained dt p o.
Proof.
  intros E. apply pass_collision in E.
  destruct E as (newer & o & older & Et & Fc & Hc & Hh & Eo & Es).
  exists (rev older), o, (rev newer).
  assert (Eobs : obs = rev older ++ o :: rev newer).
  { rewrite <- (rev_involutive obs), Et, rev_app_distr. cbn [rev].
    rewrite <- app_assoc. reflexivity. }
  repeat split; try assumption.
  - apply Forall_rev. apply Forall_forall. intros a Ha.
    unfold no_hit. destruct (culled (advance dt a)) eqn:Hca; [left; reflexivity |].
    right. rewrite Forall_forall in Fc. apply Fc.
    apply filter_In. split; [exact Ha | apply stays_not_culled; exact Hca].
  - rewrite Eo, app_nil_r. reflexivity.
  - rewrite total_gained_rev. exact Es.
Qed.

(** ** The sample round with the one asteroid [collider] *)

Lemma sample_crash :
  exists st',
    update Sample.dt Sample.rnd (Sample.round [Sample.collider]) = Some st'
    /\ obstaclesRef st' = [Sample.collider']
    /\ scoreRef st' = 0 + 0
    /\ gameOver st' = true
    /\ gameState st' = menu
    /\ difficulty st' = easy
    /\ difficultyRef st' = easy.
Proof.
  destruct (update_spec Sample.dt Sample.rnd (Sample.round [Sample.collider]))
    as (st' & E & _ & _ & Hd & Hdr & _ & _ & _ & Hr).
  exists st'. split; [exact E |].
  rewrite sample_frame_result in Hr.
  cbn [rev app pass_newest_first] in Hr. rewrite step_collider in Hr.
  cbn [rev app] in Hr.
  destruct Hr as (H1 & H2 & _ & H4 & H5 & _).
  repeat split; assumption.
Qed.

(** ** The game-over text determines the score *)

Lemma to_int_nonnil (n : Z) :
  Z.to_int n <> Decimal.Pos Decimal.Nil /\ Z.to_int n <> Decimal.Neg Decimal.Nil.
Proof.
  destruct n as [| q | q]; cbn [Z.to_int]; split; intros H;
    try discriminate; inversion H as [H1];
    exact (Unsigned.to_uint_nonnil q H1).
Qed.

Lemma number_to_string_inj (n m : Z) :
  number_to_string n = number_to_string m -> n = m.
Proof.
  unfold number_to_string. intros H.
  apply (f_equal NilZero.int_of_string) in H.
  destruct (to_int_nonnil n) as [N1 N2]. destruct (to_int_nonnil m) as [M1 M2].
  rewrite !NilZero.isi in H by assumption.
  inversion H as [H1]. apply DecimalZ.to_int_inj. exact H1.
Qed.

Lemma append_inj (s t u : string) : (s ++ t = s ++ u)%string -> t = u.
Proof.
  induction s as [| c s IH]; cbn [String.append]; intros H.
  - exact H.
  - inversion H as [H1]. apply IH. exact H1.
Qed.

Lemma game_over_text_inj (n m : Z) :
  game_over_text n = game_over_text m -> n = m.
Proof.
  unfold game_over_text. intros H.
  apply append_inj in H. apply number_to_string_inj. exact H.
Qed.

(** The sample round before any gesture, with the asteroid [collider]. *)
Lemma silent_crash :
  exists st',
    update Sample.dt Sample.rnd (silent_round [Sample.collider]) = Some st'
    /\ gameOver st' = true
    /\ gameState st' = menu
    /\ scoreRef st' = 0 + 0
    /\ speakCalls st' = [game_over_text (Zfloor (0 + 0))]
    /\ speechQueue st' = [].
Proof.
  destruct (update_spec Sample.dt Sample.rnd (silent_round [Sample.collider]))
    as (st' & E & _ & _ & _ & _ & _ & _ & _ & Hr).
  exists st'. split; [exact E |].
  assert (Ef : frame_result Sample.dt Sample.rnd (silent_round [Sample.collider])
               = frame_result Sample.dt Sample.rnd
                   (Sample.round [Sample.collider])) by reflexivity.
  rewrite Ef, sample_frame_result in Hr.
  cbn [rev app pass_newest_first] in Hr. rewrite step_collider in Hr.
  cbn [rev app] in Hr.
  destruct Hr as (_ & H2 & _ & H4 & H5 & H6 & H7).
  repeat split; assumption.
Qed.

(** * The claims *)

(** C1, counterexample.  The older asteroid [passer] (index 0) ends the tick
    behind the player and the newer [collider] (index 1) ends it on the
    player.  The loop of the source takes index 1 first and returns on the
    hit, so [passer] is neither advanced nor scored; a pass in spawn order
    would score it before the hit. *)
Lemma C1_counterexample_spawn_order :
  obstacle_loop 2 Sample.dt Sample.p [Sample.passer; Sample.collider] 0 0
  <> pass_spawn_order Sample.dt Sample.p [] [Sample.passer; Sample.collider] 0 0.
Proof.
  change 2%nat with (List.length [Sample.passer; Sample.collider]).
  rewrite obstacle_loop_pass.
  cbn [rev app pass_newest_first pass_spawn_order].
  rewrite step_collider, step_passer.
  cbn [pass_spawn_order]. rewrite step_collider.
  intros H. apply (f_equal (fun r => result_score r 0)) in H.
  cbn [result_score] in H. lra.
Qed.

(** C1, as amended.  In a call of [update] the objects of the array are
    processed in one pass from the newest (highest index) to the oldest,
    that is, in reverse spawn order; for each object the pass advances it,
    then tests pass-scoring, then the cull, then the collision, and the three
    tests read the advanced object, whose [x] is [x - speed * dt]. *)
Theorem C1_single_pass_newest_first :
  forall (dt : R) (p : Player),
    (forall (obs : list Obstacle) (sc : R) (ui : Z),
        obstacle_loop (List.length obs) dt p obs sc ui
        = pass_newest_first dt p (rev obs) [] sc ui)
    /\ (forall (o : Obstacle) (sc : R) (ui : Z),
          x (advance dt o) = x o - speed o * dt
          /\ step dt p o sc ui
             = (let scoring := passes p (advance dt o) in
                let sc2 := if scoring then sc + points o else sc in
                let ui2 := if scoring then Zfloor sc2 else ui in
                if culled (advance dt o) then Removed sc2 ui2
                else if collides p (advance dt o) then Hit (moved dt p o) sc2 ui2
                else Kept (moved dt p o) sc2 ui2))
    /\ (forall (rnd : nat -> R) (st : State),
          exists st',
            update dt rnd st = Some st'
            /\ match pass_newest_first dt (frame_player dt st)
                       (rev (frame_obstacles dt rnd st)) [] (scoreRef st) (score st)
               with
               | Completed obs sc ui | Collision obs sc ui =>
                   obstaclesRef st' = obs /\ scoreRef st' = sc /\ score st' = ui
               | TypeError => False
               end).
Proof.
  intros dt p. split; [| split].
  - intros obs sc ui. apply obstacle_loop_pass.
  - intros o sc ui. split; [apply advance_x |].
    unfold step, moved. rewrite points_advance.
    destruct (passes p (advance dt o)); reflexivity.
  - intros rnd st.
    destruct (update_spec dt rnd st) as (st' & E & _ & _ & _ & _ & _ & _ & _ & Hr).
    exists st'. split; [exact E |].
    unfold frame_result in Hr.
    destruct (pass_newest_first _ _ _ _ _ _); tauto.
Qed.

(** C2, counterexample.  The asteroid [skimmer] has radius 14 and ends the
    tick with [x + radius = 116.5]; with the player at [x = 120] the worded
    condition [x + radius < player.x - radius * 0.2 = 117.2] holds, but line
    229 tests against [player.x - CLOUD_RADIUS * 0.2 = 116]: the object is not
    flagged and the score stays. *)
Lemma C2_counterexample_obstacle_radius :
  passes_obstacle_radius Sample.p (advance Sample.dt skimmer) = true
  /\ step Sample.dt Sample.p skimmer 0 0
     = Kept (advance Sample.dt skimmer) 0 0.
Proof.
  split.
  - unfold passes_obstacle_radius, Sample.p, Sample.dt, skimmer. fields.
    rewrite Rltb_true by lra. reflexivity.
  - unfold Sample.dt, Sample.p, skimmer. run_step.
    replace (0 + 0) with 0 by lra. reflexivity.
Qed.

(** C2, as amended.  The pass line is set by the player's radius: an object
    that has not scored and whose advanced position satisfies
    [x + radius < player.x - CLOUD_RADIUS * 0.2], that is [player.x - 4], gets
    [scored = true] and adds exactly 8 (alien) or 5 (asteroid) to the score;
    an object that has scored adds nothing and keeps its flag, so it scores
    at most once; an object that does not satisfy the condition adds
    nothing.  The flag is written to the object in the array: after a tick
    that does not end the round the array holds the objects that were not
    culled, each advanced and with [scored] set exactly if it was set before
    or the condition held.  No call of [update] lowers the score; a tick that
    does not end the round adds the gains of all the objects of the array. *)
Theorem C2_pass_scoring :
  forall (dt : R) (p : Player) (o : Obstacle) (sc : R) (ui : Z),
    (scored o = false ->
     x o - speed o * dt + radius o < player_x p - CLOUD_RADIUS * 0.2 ->
     step_score (step dt p o sc ui)
     = sc + match type o with alien => 8 | asteroid => 5 end
     /\ step_ui (step dt p o sc ui)
        = Zfloor (sc + match type o with alien => 8 | asteroid => 5 end)
     /\ forall o', step_obstacle (step dt p o sc ui) = Some o' -> scored o' = true)
    /\ (scored o = true ->
        step_score (step dt p o sc ui) = sc
        /\ step_ui (step dt p o sc ui) = ui
        /\ forall o', step_obstacle (step dt p o sc ui) = Some o' -> scored o' = true)
    /\ (scored o = false ->
        player_x p - CLOUD_RADIUS * 0.2 <= x o - speed o * dt + radius o ->
        step_score (step dt p o sc ui) = sc
        /\ step_ui (step dt p o sc ui) = ui
        /\ forall o', step_obstacle (step dt p o sc ui) = Some o' -> scored o' = false)
    /\ (forall (rnd : nat -> R) (st : State),
          exists st',
            update dt rnd st = Some st'
            /\ scoreRef st <= scoreRef st'
            /\ (gameState st = playing -> gameState st' = playing ->
                scoreRef st'
                = scoreRef st
                  + total_gained dt (playerRef st') (frame_obstacles dt rnd st)
                /\ obstaclesRef st'
                   = map (moved dt (playerRef st'))
                       (filter (stays dt) (frame_obstacles dt rnd st))))
    /\ scored (moved dt p o)
       = scored o
         || Rltb (x o - speed o * dt + radius o) (player_x p - CLOUD_RADIUS * 0.2).
Proof.
  intros dt p o sc ui.
  assert (Hx : x (advance dt o) + radius (advance dt o)
               = x o - speed o * dt + radius o).
  { rewrite advance_x, advance_radius. reflexivity. }
  assert (Hpts : points o = match type o with alien => 8 | asteroid => 5 end).
  { unfold points. destruct (type o); reflexivity. }
  repeat apply conj.
  - intros Hs Hlt.
    assert (Hp : passes p (advance dt o) = true).
    { apply passes_true; [rewrite advance_scored; exact Hs | lra]. }
    rewrite <- Hpts. rewrite step_unfold. unfold gained, moved. rewrite Hp. cbv zeta.
    destruct (culled _); [| destruct (collides p _)];
      cbn [step_score step_ui step_obstacle]; repeat split;
      intros o' Ho'; try discriminate; inversion Ho'; reflexivity.
  - intros Hs.
    assert (Hp : passes p (advance dt o) = false).
    { apply passes_false. left. rewrite advance_scored. exact Hs. }
    rewrite step_unfold. unfold gained, moved. rewrite Hp. cbv zeta.
    destruct (culled _); [| destruct (collides p _)];
      cbn [step_score step_ui step_obstacle]; repeat split; try lra;
      intros o' Ho'; try discriminate; inversion Ho';
      rewrite advance_scored; exact Hs.
  - intros Hs Hge.
    assert (Hp : passes p (advance dt o) = false).
    { apply passes_false. right. lra. }
    rewrite step_unfold. unfold gained, moved. rewrite Hp. cbv zeta.
    destruct (culled _); [| destruct (collides p _)];
      cbn [step_score step_ui step_obstacle]; repeat split; try lra;
      intros o' Ho'; try discriminate; inversion Ho';
      rewrite advance_scored; exact Hs.
  - intros rnd st.
    destruct (update_spec dt rnd st) as (st' & E & Ep & _ & _ & _ & _ & _ & _ & Hr).
    exists st'. split; [exact E |].
    unfold frame_result in Hr.
    pose proof (pass_score_le dt (frame_player dt st)
                  (rev (frame_obstacles dt rnd st)) [] (scoreRef st) (score st)) as Hle.
    destruct (pass_newest_first _ _ _ _ _ _) as [obs s u | obs s u |] eqn:Er;
      [| | contradiction]; cbn [result_score] in Hle;
      pose proof Hr as (_ & Hs & _ & _ & Hg & _); rewrite Hs; split; try exact Hle.
    + intros _ _. apply pass_completed in Er. destruct Er as (Eo & Er & _).
      destruct Hr as (Hobs & _).
      rewrite Er, total_gained_rev, Ep. split; [reflexivity |].
      rewrite Hobs, Eo, app_nil_r, rev_involutive. reflexivity.
    + intros _ Hp. rewrite Hg in Hp. discriminate.
  - unfold moved, passes. rewrite advance_scored, advance_x, advance_radius.
    destruct (scored o) eqn:Hs; cbn [negb andb orb].
    + rewrite advance_scored. exact Hs.
    + destruct (Rltb _ _); [reflexivity | rewrite advance_scored; exact Hs].
Qed.

(** C2, at the sample asteroid [passer]: it scores 5 in this tick, and
    [passer'], which it becomes, scores nothing in the next. *)
Lemma C2_witness_passer :
  step_score (step Sample.dt Sample.p Sample.passer 0 0) = 0 + 5
  /\ step_score (step Sample.dt Sample.p Sample.passer' 5 5) = 5.
Proof.
  split.
  - destruct (C2_pass_scoring Sample.dt Sample.p Sample.passer 0 0)
      as (H & _).
    apply H.
    + reflexivity.
    + unfold Sample.dt, Sample.p, Sample.passer. by_numbers.
  - destruct (C2_pass_scoring Sample.dt Sample.p Sample.passer' 5 5)
      as (_ & H & _).
    apply H. reflexivity.
Defined.

(** C4.  Whatever keys are held and wherever the pointer is, a call of
    [update] leaves the player at [20 <= x <= 780] and [20 <= y <= 480]; a
    frame in which [update] is not called leaves the player where it was;
    hence the bounds hold in every state of a session. *)
Theorem C4_player_in_field :
  (forall (dt : R) (rnd : nat -> R) (st : State),
      exists st',
        update dt rnd st = Some st'
        /\ 20 <= player_x (playerRef st') <= 780
        /\ 20 <= player_y (playerRef st') <= 480)
  /\ (forall (dt : R) (rnd : nat -> R) (st : State),
        exists st',
          tick dt rnd st = Some st'
          /\ (in_field (playerRef st) -> in_field (playerRef st')))
  /\ (forall st : State,
        reachable st ->
        20 <= player_x (playerRef st) <= 780 /\ 20 <= player_y (playerRef st) <= 480).
Proof.
  assert (Hu : forall dt rnd st, exists st',
             update dt rnd st = Some st' /\ in_field (playerRef st')).
  { intros dt rnd st.
    destruct (update_spec dt rnd st) as (st' & E & Ep & _).
    exists st'. split; [exact E |]. rewrite Ep. apply move_player_in_field. }
  split; [| split].
  - intros dt rnd st. destruct (Hu dt rnd st) as (st' & E & Hin).
    exists st'. split; [exact E |]. apply in_field_numbers. exact Hin.
  - intros dt rnd st. unfold tick. destruct (gameState st).
    + exists st. split; [reflexivity | tauto].
    + destruct (Hu dt rnd st) as (st' & E & Hin). exists st'. tauto.
  - intros st Hr. apply in_field_numbers.
    apply reachable_invariant in Hr. apply Hr.
Qed.

(** C4, in the state in which a first round starts. *)
Lemma C4_witness_started :
  20 <= player_x (playerRef (startGame 0 (initial_state true))) <= 780
  /\ 20 <= player_y (playerRef (startGame 0 (initial_state true))) <= 480.
Proof.
  destruct C4_player_in_field as (_ & _ & H).
  apply H.
  apply (reach_event (ClickStart 0) (initial_state true)).
  - apply reach_init.
  - exact I.
  - reflexivity.
Defined.


(** C6, counterexample.  For a new alien ([life = 0], [wobblePhase = 0]) the
    source adds [sin(0) * 40 * dt = 0] to [y]: the drift is taken from the
    age before the increment.  Advancing the age first would add
    [sin(0.088) * 40 * dt > 0]. *)
Lemma C6_counterexample_age_first :
  y (advance Sample.dt Sample.wobbler)
  <> y (advance_age_first Sample.dt Sample.wobbler).
Proof.
  unfold advance, advance_age_first, Sample.wobbler, Sample.dt.
  cbn [type x y radius speed wobblePhase life scored].
  replace ((0 * 2 + 0) * 2.2) with 0 by lra. rewrite sin_0.
  assert (Hs : 0 < sin (((0 + 0.02) * 2 + 0) * 2.2)).
  { apply sin_gt_0; [lra |]. pose proof PI2_3_2. lra. }
  intros H. nra.
Qed.

(** C6, as amended.  For an alien, an iteration of the loop adds
    [sin((life * 2 + wobblePhase) * 2.2) * 40 * dt] to [y], with [life] the age
    before this tick's increment, and then sets [life] to [life + dt]; the
    drift accumulates in [y] from tick to tick; [wobblePhase] does not
    change; pass-scoring leaves [y] and [life] as the advance set them. *)
Theorem C6_alien_drift :
  forall (dt : R) (o : Obstacle),
    type o = alien ->
    y (advance dt o) = y o + sin ((life o * 2 + wobblePhase o) * 2.2) * 40 * dt
    /\ life (advance dt o) = life o + dt
    /\ wobblePhase (advance dt o) = wobblePhase o
    /\ (forall dt2 : R,
          y (advance dt2 (advance dt o))
          = y o + sin ((life o * 2 + wobblePhase o) * 2.2) * 40 * dt
            + sin (((life o + dt) * 2 + wobblePhase o) * 2.2) * 40 * dt2)
    /\ (forall p : Player,
          y (moved dt p o) = y (advance dt o)
          /\ life (moved dt p o) = life (advance dt o)).
Proof.
  intros dt o Ht.
  assert (H1 : advance dt o
               = mkObstacle alien (x o - speed o * dt)
                   (y o + sin ((life o * 2 + wobblePhase o) * 2.2) * 40 * dt)
                   (radius o) (speed o) (wobblePhase o) (life o + dt) (scored o)).
  { unfold advance. rewrite Ht. reflexivity. }
  repeat apply conj.
  - rewrite H1. reflexivity.
  - rewrite H1. reflexivity.
  - rewrite H1. reflexivity.
  - intros dt2. rewrite H1. unfold advance.
    cbn [type x y radius speed wobblePhase life scored]. reflexivity.
  - intros p. unfold moved. destruct (passes p (advance dt o)); split; reflexivity.
Qed.

(** C6, at the sample alien: its first tick leaves [y] at 100 and sets
    [life] to [dt]. *)
Lemma C6_witness_wobbler :
  y (advance Sample.dt Sample.wobbler)
  = 100 + sin ((0 * 2 + 0) * 2.2) * 40 * Sample.dt
  /\ life (advance Sample.dt Sample.wobbler) = 0 + Sample.dt.
Proof.
  destruct (C6_alien_drift Sample.dt Sample.wobbler) as (H1 & H2 & _).
  - reflexivity.
  - split; [exact H1 | exact H2].
Defined.

(** C7, counterexample.  In a round started before any key or canvas press
    (the Start button was clicked), speech is not yet allowed: the tick in
    which [collider] hits ends the round, and [speak] returns at line 394
    without handing anything to the synthesiser.  No notification carrying
    the score is emitted. *)
Lemma C7_counterexample_no_gesture :
  exists st',
    tick Sample.dt Sample.rnd (silent_round [Sample.collider]) = Some st'
    /\ phase st' = GameOver
    /\ speechQueue st' = [].
Proof.
  destruct silent_crash as (st' & E & Hg & Hs & _ & _ & Hq).
  exists st'. split; [exact E |]. split; [| exact Hq].
  unfold phase. rewrite Hs, Hg. reflexivity.
Qed.

(** C7, as amended.  In every phase other than Playing a tick changes
    nothing.  While playing, when [o] is the first object in processing
    order that is not culled and is in reach, the tick stops there: the
    older objects are left as they were and are not scored, [gameOver] is
    set and [gameState] goes back to ['menu'] (phase GameOver), and [speak]
    is called with the text ["Game over. Score "] followed by the decimal
    digits of [Math.floor(scoreRef.current)], a text that determines the
    score.  The synthesiser receives this text, as its only utterance,
    exactly when speech has been allowed, sound is not muted and the
    synthesiser exists; otherwise its queue is left as it was.  Every later
    tick is a no-op.  A tick while playing ends the round only in this way,
    and in a session the floored score is the score itself. *)
Theorem C7_collision_ends_round :
  forall (dt : R) (rnd : nat -> R) (st : State),
    (phase st <> Playing -> tick dt rnd st = Some st)
    /\ (forall (older newer : list Obstacle) (o : Obstacle),
          gameState st = playing ->
          frame_obstacles dt rnd st = older ++ o :: newer ->
          Forall (no_hit dt (frame_player dt st)) newer ->
          culled (advance dt o) = false ->
          collides (frame_player dt st) (advance dt o) = true ->
          exists st',
            tick dt rnd st = Some st'
            /\ obstaclesRef st'
               = older ++ moved dt (frame_player dt st) o
                   :: survivors dt (frame_player dt st) newer
            /\ scoreRef st'
               = scoreRef st + total_gained dt (frame_player dt st) newer
                 + gained dt (frame_player dt st) o
            /\ gameOver st' = true
            /\ gameState st' = menu
            /\ phase st' = GameOver
            /\ speakCalls st'
               = game_over_text (Zfloor (scoreRef st')) :: speakCalls st
            /\ speechQueue st'
               = (if speechAllowedRef st && negb (isMutedRef st)
                     && speechSynthesis st
                  then [game_over_text (Zfloor (scoreRef st'))]
                  else speechQueue st)
            /\ (forall dt2 rnd2, tick dt2 rnd2 st' = Some st'))
    /\ (forall n m : Z,
          game_over_text n
          = ("Game over. Score " ++ NilZero.string_of_int (Z.to_int n))%string
          /\ (game_over_text n = game_over_text m -> n = m))
    /\ game_over_text 13 = "Game over. Score 13"%string
    /\ (forall st' : State,
          gameState st = playing ->
          tick dt rnd st = Some st' ->
          phase st' = GameOver ->
          exists (older newer : list Obstacle) (o : Obstacle),
            frame_obstacles dt rnd st = older ++ o :: newer
            /\ Forall (no_hit dt (frame_player dt st)) newer
            /\ culled (advance dt o) = false
            /\ collides (frame_player dt st) (advance dt o) = true)
    /\ (forall st' : State,
          invariant st -> uniform rnd ->
          tick dt rnd st = Some st' ->
          scoreRef st' = IZR (score st') /\ Zfloor (scoreRef st') = score st').
Proof.
  intros dt rnd st. repeat apply conj.
  - intros Hp. unfold tick. unfold phase in Hp.
    destruct (gameState st); [reflexivity | contradiction].
  - intros older newer o Hg Eo Fn Hc Hh.
    destruct (update_first_hit dt rnd st older newer o Eo Fn Hc Hh)
      as (st' & E & H1 & H2 & H3 & H4 & H5 & H6).
    exists st'. unfold tick at 1. rewrite Hg.
    repeat split; try assumption.
    + unfold phase. rewrite H4, H3. reflexivity.
    + rewrite H6. unfold queue_after_speak.
      destruct (speechAllowedRef st); destruct (isMutedRef st);
        destruct (speechSynthesis st); reflexivity.
    + intros dt2 rnd2. unfold tick. rewrite H4. reflexivity.
  - intros n m. split; [reflexivity | apply game_over_text_inj].
  - reflexivity.
  - intros st' Hg E Hp.
    unfold tick in E. rewrite Hg in E.
    destruct (update_spec dt rnd st) as (st1 & E1 & _ & _ & _ & _ & _ & _ & _ & Hr).
    rewrite E in E1. inversion E1; subst st1. clear E1.
    unfold frame_result in Hr.
    destruct (pass_newest_first _ _ _ _ _ _) as [obs s u | obs s u |] eqn:Er;
      [| | contradiction].
    + destruct Hr as (_ & _ & _ & _ & Hgs & _).
      unfold phase in Hp. rewrite Hgs, Hg in Hp. discriminate.
    + apply pass_collision_array in Er.
      destruct Er as (older & o & newer & Eo & Fn & Hc & Hh & _).
      exists older, newer, o. repeat split; assumption.
  - intros st' Hi U E.
    pose proof (invariant_tick dt rnd st st' U Hi E) as (_ & _ & _ & Hs & _).
    split; [exact Hs |]. rewrite Hs. apply ZfloorZ.
Qed.

(** C7, at the sample round with the one asteroid [collider], where speech
    is allowed: the tick ends the round and announces the score 0. *)
Lemma C7_witness_scenario_B :
  exists st',
    tick Sample.dt Sample.rnd (Sample.round [Sample.collider]) = Some st'
    /\ phase st' = GameOver
    /\ speakCalls st' = [game_over_text (Zfloor (scoreRef st'))]
    /\ speechQueue st' = [game_over_text (Zfloor (scoreRef st'))]
    /\ (forall dt2 rnd2, tick dt2 rnd2 st' = Some st').
Proof.
  destruct (C7_collision_ends_round Sample.dt Sample.rnd
              (Sample.round [Sample.collider])) as (_ & H & _).
  destruct (H [] [] Sample.collider)
    as (st' & E & _ & _ & _ & _ & Hp & Hs & Hq & Hn).
  - reflexivity.
  - apply sample_frame_obstacles.
  - constructor.
  - unfold Sample.dt, Sample.collider. apply culled_false. by_numbers.
  - rewrite sample_frame_player.
    unfold Sample.dt, Sample.collider, Sample.p. apply collides_true; by_numbers.
  - exists st'. repeat split; assumption.
Defined.

(** C8, counterexample.  In the sample round the asteroid [collider] ends the
    round, and after that tick it is still in the array (advanced to
    [collider']): the object that triggers game-over is not removed. *)
Lemma C8_counterexample_collider_stays :
  exists st',
    update Sample.dt Sample.rnd (Sample.round [Sample.collider]) = Some st'
    /\ phase st' = GameOver
    /\ obstaclesRef st' = [Sample.collider'].
Proof.
  destruct sample_crash as (st' & E & Ho & _ & Hg & Hs & _).
  exists st'. repeat split; try assumption.
  unfold phase. rewrite Hs, Hg. reflexivity.
Qed.

(** C8, as amended.  An iteration removes its object from the array exactly
    when the advanced [x] is below [-radius * 2]; the removal does not enter
    the score, which is the score as the pass-scoring test left it.  A pass
    that runs to the end leaves exactly the objects that were not culled, in
    their order; a pass that stops on a collision leaves the object that
    collided in the array, with the older ones before it.  [restart] and
    [startGame] empty the array. *)
Theorem C8_removal :
  forall (dt : R) (p : Player),
    (forall (o : Obstacle) (sc : R) (ui : Z),
        (step_obstacle (step dt p o sc ui) = None
         <-> x o - speed o * dt < - radius o * 2)
        /\ step_score (step dt p o sc ui) = sc + gained dt p o)
    /\ (forall (obs obs' : list Obstacle) (sc sc' : R) (ui ui' : Z),
          obstacle_loop (List.length obs) dt p obs sc ui = Completed obs' sc' ui' ->
          obs' = map (moved dt p)
                   (filter (fun o => negb (Rltb (x o - speed o * dt) (- radius o * 2)))
                      obs))
    /\ (forall (obs obs' : list Obstacle) (sc sc' : R) (ui ui' : Z),
          obstacle_loop (List.length obs) dt p obs sc ui = Collision obs' sc' ui' ->
          exists older o newer,
            obs = older ++ o :: newer
            /\ collides p (advance dt o) = true
            /\ obs' = older ++ moved dt p o :: survivors dt p newer)
    /\ (forall (now : R) (st : State),
          obstaclesRef (restart now st) = []
          /\ obstaclesRef (startGame now st) = []).
Proof.
  intros dt p. repeat apply conj.
  - intros o sc ui. split; [| apply step_score_gained].
    rewrite step_unfold. cbv zeta.
    assert (Hc : culled (advance dt o) = true <-> x o - speed o * dt < - radius o * 2).
    { unfold culled. rewrite Rltb_spec, advance_x, advance_radius. tauto. }
    destruct (culled (advance dt o)).
    + cbn [step_obstacle]. split; [intros _; apply Hc; reflexivity | reflexivity].
    + destruct (collides p (advance dt o)); cbn [step_obstacle]; split;
        intros H; try discriminate; apply Hc in H; discriminate.
  - intros obs obs' sc sc' ui ui' E.
    rewrite obstacle_loop_pass in E. apply pass_completed in E.
    destruct E as (E & _ & _).
    rewrite E, app_nil_r, rev_involutive. unfold survivors. f_equal.
    apply filter_ext. intros o. unfold stays, culled.
    rewrite advance_x, advance_radius. reflexivity.
  - intros obs obs' sc sc' ui ui' E.
    rewrite obstacle_loop_pass in E. apply pass_collision_array in E.
    destruct E as (older & o & newer & Eo & _ & _ & Hh & Eo' & _).
    exists older, o, newer. repeat split; assumption.
  - intros now st. split; reflexivity.
Qed.

(** C8, at Scenario C of the specification: an asteroid that has scored and
    ends the tick at [x = -42 < -40] leaves the array, and the score stays
    at 5. *)
Lemma C8_witness_scenario_C :
  step_obstacle (step Sample.dt Sample.p Sample.leaver 5 5) = None
  /\ step_score (step Sample.dt Sample.p Sample.leaver 5 5)
     = 5 + gained Sample.dt Sample.p Sample.leaver.
Proof.
  destruct (C8_removal Sample.dt Sample.p) as (H & _).
  destruct (H Sample.leaver 5 5%Z) as (Hc & Hs).
  split; [| exact Hs].
  apply Hc. unfold Sample.dt, Sample.leaver. by_numbers.
Defined.

(** C9, counterexample.  After the collision of the sample round the phase
    is GameOver, the menu overlay with the three difficulty buttons is shown
    again, and a click on "Hard" changes the difficulty from easy to hard. *)
Lemma C9_counterexample_game_over :
  exists st',
    update Sample.dt Sample.rnd (Sample.round [Sample.collider]) = Some st'
    /\ phase st' = GameOver
    /\ difficulty st' = easy
    /\ difficulty (click_difficulty hard st') = hard
    /\ difficultyRef (click_difficulty hard st') = hard.
Proof.
  destruct sample_crash as (st' & E & _ & _ & Hg & Hs & Hd & _).
  exists st'. unfold phase, click_difficulty. rewrite Hs, Hg.
  repeat split; assumption.
Qed.

(** C9, as amended.  A click on a difficulty button sets the difficulty
    whenever [gameState] is ['menu'], that is, in the phases Menu and
    GameOver, and changes nothing else of the simulation; while Playing the
    buttons are not there and the difficulty cannot change; [restart],
    [startGame] and [update] leave the difficulty as it is. *)
Theorem C9_difficulty :
  forall (d : Difficulty) (st : State),
    (phase st <> Playing ->
     difficulty (click_difficulty d st) = d
     /\ difficultyRef (click_difficulty d st) = d
     /\ phase (click_difficulty d st) = phase st
     /\ obstaclesRef (click_difficulty d st) = obstaclesRef st
     /\ scoreRef (click_difficulty d st) = scoreRef st
     /\ playerRef (click_difficulty d st) = playerRef st)
    /\ (phase st = Playing -> click_difficulty d st = st)
    /\ (forall now : R,
          difficulty (restart now st) = difficulty st
          /\ difficultyRef (restart now st) = difficultyRef st
          /\ difficulty (startGame now st) = difficulty st
          /\ difficultyRef (startGame now st) = difficultyRef st)
    /\ (forall (dt : R) (rnd : nat -> R),
          exists st',
            tick dt rnd st = Some st'
            /\ difficulty st' = difficulty st
            /\ difficultyRef st' = difficultyRef st).
Proof.
  intros d st. repeat apply conj.
  - intros Hp. unfold click_difficulty, phase in *.
    destruct (gameState st) eqn:G; [| contradiction].
    unfold setDifficulty. cbn. rewrite G. repeat split; reflexivity.
  - intros Hp. unfold click_difficulty, phase in *.
    destruct (gameState st); [| reflexivity].
    destruct (gameOver st); discriminate.
  - intros now. repeat split; reflexivity.
  - intros dt rnd. unfold tick. destruct (gameState st).
    + exists st. repeat split; reflexivity.
    + destruct (update_spec dt rnd st) as (st' & E & _ & _ & Hd & Hr & _).
      exists st'. repeat split; assumption.
Qed.

(** C9, in the initial state (phase Menu): a click on "Hard" sets it. *)
Lemma C9_witness_menu :
  difficulty (click_difficulty hard (initial_state true)) = hard
  /\ click_difficulty medium (startGame 0 (click_difficulty hard (initial_state true)))
     = startGame 0 (click_difficulty hard (initial_state true)).
Proof.
  split.
  - destruct (C9_difficulty hard (initial_state true)) as (H & _).
    apply H. discriminate.
  - destruct (C9_difficulty medium
                (startGame 0 (click_difficulty hard (initial_state true))))
      as (_ & H & _).
    apply H. reflexivity.
Defined.

(** C10.  When an object that has not scored ends its advance with
    [x + radius < player.x - CLOUD_RADIUS * 0.2], is not culled and is in reach
    of the player, the iteration first adds its 8 or 5 points and then
    returns on the collision: the score of the hit includes the pass.  When
    that object is the first hit of a call of [update], the text handed to
    [speak] carries the score with these points. *)
Theorem C10_pass_then_hit :
  forall (dt : R) (p : Player) (o : Obstacle) (sc : R) (ui : Z),
    scored o = false ->
    x o - speed o * dt + radius o < player_x p - CLOUD_RADIUS * 0.2 ->
    - radius o * 2 <= x o - speed o * dt ->
    within_reach p (advance dt o) ->
    step dt p o sc ui
    = Hit (set_obstacle_scored true (advance dt o))
        (sc + match type o with alien => 8 | asteroid => 5 end)
        (Zfloor (sc + match type o with alien => 8 | asteroid => 5 end))
    /\ (forall (rnd : nat -> R) (st : State) (older newer : list Obstacle),
          frame_player dt st = p ->
          frame_obstacles dt rnd st = older ++ o :: newer ->
          Forall (no_hit dt p) newer ->
          exists st',
            update dt rnd st = Some st'
            /\ scoreRef st'
               = scoreRef st + total_gained dt p newer
                 + match type o with alien => 8 | asteroid => 5 end
            /\ gameOver st' = true
            /\ speakCalls st'
               = game_over_text
                   (Zfloor (scoreRef st + total_gained dt p newer
                            + match type o with alien => 8 | asteroid => 5 end))
                   :: speakCalls st).
Proof.
  intros dt p o sc ui Hs Hpass Hcull Hreach.
  assert (Hp : passes p (advance dt o) = true).
  { apply passes_true; [rewrite advance_scored; exact Hs |].
    rewrite advance_x, advance_radius. exact Hpass. }
  assert (Hc : culled (advance dt o) = false).
  { apply culled_false. rewrite advance_x, advance_radius. exact Hcull. }
  assert (Hh : collides p (advance dt o) = true).
  { apply collides_within_reach. exact Hreach. }
  assert (Hpts : points o = match type o with alien => 8 | asteroid => 5 end).
  { unfold points. destruct (type o); reflexivity. }
  split.
  - rewrite step_unfold. unfold gained, moved. cbv zeta.
    rewrite Hp, Hc, Hh, Hpts. reflexivity.
  - intros rnd st older newer Ep Eo Fn. subst p.
    destruct (update_first_hit dt rnd st older newer o Eo Fn Hc Hh)
      as (st' & E & _ & H2 & H3 & _ & H5 & _).
    unfold gained in H2. rewrite Hp, Hpts in H2.
    exists st'. repeat split; try assumption.
    rewrite H5, H2. reflexivity.
Qed.

(** C10, at the sample asteroid [grazer]: after its advance its right edge
    is at 115 < 116 and its centre 25 < 38 from the player; the hit carries
    the score 0 + 5. *)
Lemma C10_witness_grazer :
  step Sample.dt Sample.p Sample.grazer 0 0
  = Hit (set_obstacle_scored true (advance Sample.dt Sample.grazer))
      (0 + 5) (Zfloor (0 + 5)).
Proof.
  apply (C10_pass_then_hit Sample.dt Sample.p Sample.grazer 0 0).
  - reflexivity.
  - unfold Sample.dt, Sample.p, Sample.grazer. by_numbers.
  - unfold Sample.dt, Sample.grazer. by_numbers.
  - apply collides_within_reach.
    unfold Sample.dt, Sample.p, Sample.grazer. apply collides_true; by_numbers.
Defined.

(** * Further properties of the code *)

(** ** More on update *)

(** The fields [update] never writes. *)
Lemma update_untouched (dt : R) (rnd : nat -> R) (st st' : State) :
  update dt rnd st = Some st' ->
  keysRef st' = keysRef st
  /\ pointerRef st' = pointerRef st
  /\ difficultyRef st' = difficultyRef st
  /\ difficulty st' = difficulty st
  /\ lastTimeRef st' = lastTimeRef st
  /\ speechAllowedRef st' = speechAllowedRef st
  /\ isMutedRef st' = isMutedRef st
  /\ speechSynthesis st' = speechSynthesis st.
Proof.
  unfold update.
  destruct (spawn_phase dt rnd _ _ _ _) as [t obs].
  cbn [set_playerRef set_spawnTimersRef set_obstaclesRef scoreRef score
       difficultyRef spawnTimersRef obstaclesRef].
  destruct (obstacle_loop _ _ _ _ _ _) as [obs' sc ui | obs' sc ui |];
    intros E; inversion E; subst st'; clear E.
  - cbn. repeat split; reflexivity.
  - unfold speak. cbn.
    destruct (negb (speechAllowedRef st) || isMutedRef st);
      [cbn; repeat split; reflexivity |].
    destruct (negb (speechSynthesis st)); cbn; repeat split; reflexivity.
Qed.

Lemma spawnObstacle_new (ty : ObstacleType) (spd : R) (rnd : nat -> R)
    (k : nat) (obs : list Obstacle) :
  spawnObstacle ty spd rnd k obs
  = match ty with
    | asteroid => (obs ++ [new_asteroid spd rnd k], (k + 3)%nat)
    | alien => (obs ++ [new_alien spd rnd k], (k + 4)%nat)
    end.
Proof. destruct ty; reflexivity. Qed.

Lemma frame_spawn (dt : R) (rnd : nat -> R) (st : State) :
  frame_obstacles dt rnd st
  = obstaclesRef st
    ++ (if asteroid_due dt st then [frame_asteroid rnd st] else [])
    ++ (if alien_due dt st then [frame_alien dt rnd st] else [])
  /\ frame_timers dt rnd st
     = mkSpawnTimers
         (if asteroid_due dt st then 0
          else asteroidMs (spawnTimersRef st) + dt * 1000)
         (if alien_due dt st then 0
          else alienMs (spawnTimersRef st) + dt * 1000).
Proof.
  unfold frame_obstacles, frame_timers, spawn_phase, frame_alien, frame_asteroid.
  unfold asteroid_due, alien_due.
  destruct (Rleb (astInterval _ _) _); destruct (Rleb (aliInterval _ _) _);
    rewrite ?spawnObstacle_new; cbn [snd fst]; rewrite ?spawnObstacle_new;
    cbn [snd fst]; split; try reflexivity.
  - rewrite <- app_assoc. reflexivity.
  - rewrite app_nil_r. reflexivity.
Qed.

(** ** Round reset, spawning and difficulty scaling *)

(** X1.  [restart] overrides an earlier [restart]: two resets in a row leave
    the state of the second alone, and so do two [startGame]; a reset
    keeps the keys held, the pointer, the difficulty, the mute and speech
    flags and [gameState], and puts the round back to score 0, no objects,
    timers 0 and the player at (120, 250). *)
Theorem X1_restart_overrides :
  forall (now1 now2 : R) (st : State),
    restart now2 (restart now1 st) = restart now2 st
    /\ startGame now2 (startGame now1 st) = startGame now2 st
    /\ restart now2 (startGame now1 st) = startGame now2 st
    /\ keysRef (restart now1 st) = keysRef st
    /\ pointerRef (restart now1 st) = pointerRef st
    /\ difficulty (restart now1 st) = difficulty st
    /\ isMutedRef (restart now1 st) = isMutedRef st
    /\ speechAllowedRef (restart now1 st) = speechAllowedRef st
    /\ gameState (restart now1 st) = gameState st
    /\ scoreRef (restart now1 st) = 0
    /\ score (restart now1 st) = 0%Z
    /\ obstaclesRef (restart now1 st) = []
    /\ spawnTimersRef (restart now1 st) = mkSpawnTimers 0 0
    /\ playerRef (restart now1 st) = mkPlayer 120 (HEIGHT / 2)
    /\ gameOver (restart now1 st) = false
    /\ lastTimeRef (restart now1 st) = now1.
Proof. intros now1 now2 st. repeat split; reflexivity. Qed.

(** X2.  With [Math.random()] in [0, 1), [spawnObstacle] pushes one object
    at the end of the array and leaves the others alone; the object is
    unscored, at [x = 840] (asteroid) or [860] (alien), with [y] in [40, 460]
    and radius in [14, 28] or [18, 26], and for an alien a wobble phase in
    [0, 2 pi] and age 0.  An asteroid takes three random draws and an alien
    four. *)
Theorem X2_spawnObstacle_ranges :
  forall (ty : ObstacleType) (spd : R) (rnd : nat -> R) (k : nat)
         (obs : list Obstacle),
    uniform rnd ->
    exists o : Obstacle,
      fst (spawnObstacle ty spd rnd k obs) = obs ++ [o]
      /\ type o = ty /\ scored o = false
      /\ 40 <= y o <= 460
      /\ match ty with
         | asteroid =>
             x o = 840 /\ 14 <= radius o <= 28
             /\ snd (spawnObstacle ty spd rnd k obs) = (k + 3)%nat
         | alien =>
             x o = 860 /\ 18 <= radius o <= 26
             /\ 0 <= wobblePhase o <= PI * 2 /\ life o = 0
             /\ snd (spawnObstacle ty spd rnd k obs) = (k + 4)%nat
         end.
Proof.
  intros ty spd rnd k obs U.
  rewrite spawnObstacle_new.
  pose proof (U k) as U0. pose proof (U (k + 1)%nat) as U1.
  pose proof (U (k + 3)%nat) as U3.
  pose proof PI_RGT_0 as Hpi.
  destruct ty; eexists; (split; [reflexivity |]);
    unfold new_asteroid, new_alien, rand, WIDTH, HEIGHT;
    cbn [type x y radius speed wobblePhase life scored snd].
  - repeat split; try reflexivity; try lra.
  - repeat split; try reflexivity; try lra; nra.
Qed.

(** X2, for an asteroid with all draws 0.5. *)
Lemma X2_witness :
  exists o : Obstacle,
    fst (spawnObstacle asteroid 170 Sample.rnd 1 []) = [] ++ [o]
    /\ type o = asteroid /\ scored o = false
    /\ 40 <= y o <= 460
    /\ x o = 840 /\ 14 <= radius o <= 28
    /\ snd (spawnObstacle asteroid 170 Sample.rnd 1 []) = (1 + 3)%nat.
Proof.
  apply (X2_spawnObstacle_ranges asteroid 170 Sample.rnd 1 []).
  exact sample_uniform.
Defined.

(** X3.  The speed boost [min(260, score / 20 * 9)] never exceeds 260, grows
    with the score and reaches 260 exactly from score 5200/9 on; for a score
    that is not negative the scroll speed lies between 170 and 510. *)
Theorem X3_scroll_speed :
  forall (d : Difficulty) (sc : R),
    speedBoost sc <= 260
    /\ (speedBoost sc = 260 <-> 5200 / 9 <= sc)
    /\ (forall sc', sc <= sc' ->
          speedBoost sc <= speedBoost sc'
          /\ scrollSpeed d sc <= scrollSpeed d sc')
    /\ (0 <= sc -> 170 <= scrollSpeed d sc <= 510).
Proof.
  intros d sc. unfold scrollSpeed, speedBoost, BASE_SCROLL_SPEED.
  assert (Hmin : forall s, Rmin 260 (s / 20 * 9) <= 260
                           /\ Rmin 260 (s / 20 * 9) <= s / 20 * 9
                           /\ (Rmin 260 (s / 20 * 9) = 260
                               \/ Rmin 260 (s / 20 * 9) = s / 20 * 9)).
  { intros s. unfold Rmin. destruct (Rle_dec 260 (s / 20 * 9)); lra. }
  split; [apply Hmin |].
  split; [destruct (Hmin sc) as (H1 & H2 & [H3 | H3]); split; intros; lra |].
  split.
  - intros sc' Hle.
    assert (Hb : Rmin 260 (sc / 20 * 9) <= Rmin 260 (sc' / 20 * 9)).
    { apply Rmin_glb; [apply Rmin_l |].
      eapply Rle_trans; [apply Rmin_r | lra]. }
    split; [exact Hb | lra].
  - intros Hsc.
    destruct (Hmin sc) as (H1 & H2 & [H3 | H3]); destruct d; cbn [diffMult]; lra.
Qed.

(** X4.  At every score a harder difficulty scrolls faster and spawns
    sooner: scroll speed easy <= medium <= hard, and both spawn intervals
    hard <= medium <= easy.  An interval stops shrinking exactly when the
    score reaches [base * 0.45 / 3.5] (asteroids) or [base * 0.4 / 3.8]
    (aliens), and is never below 286 ms (asteroids) or 480 ms (aliens). *)
Theorem X4_difficulty_order :
  forall (sc : R),
    scrollSpeed easy sc <= scrollSpeed medium sc <= scrollSpeed hard sc
    /\ astInterval hard sc <= astInterval medium sc <= astInterval easy sc
    /\ aliInterval hard sc <= aliInterval medium sc <= aliInterval easy sc
    /\ (forall d,
          (astInterval d sc = baseAst d * 0.55 <-> baseAst d * 0.45 / 3.5 <= sc)
          /\ (aliInterval d sc = baseAli d * 0.6 <-> baseAli d * 0.4 / 3.8 <= sc)
          /\ 286 <= astInterval d sc
          /\ 480 <= aliInterval d sc).
Proof.
  intros sc.
  unfold scrollSpeed, astInterval, aliInterval, BASE_SCROLL_SPEED.
  cbn [diffMult baseAst baseAli].
  repeat apply conj; try lra;
    try (unfold Rmax;
         repeat match goal with
                | |- context [Rle_dec ?a ?b] => destruct (Rle_dec a b)
                end; lra).
  intros d. destruct d; cbn [baseAst baseAli]; unfold Rmax;
    repeat match goal with
           | |- context [Rle_dec ?a ?b] => destruct (Rle_dec a b)
           end; repeat split; intros; lra.
Qed.

(** ** Spawning inside update *)

Lemma survivors_length (dt : R) (p : Player) (l : list Obstacle) :
  (List.length (survivors dt p l) <= List.length l)%nat.
Proof.
  unfold survivors. rewrite length_map. apply filter_length_le.
Qed.

Lemma pass_length (dt : R) (p : Player) (obs obs' : list Obstacle)
    (sc sc' : R) (ui ui' : Z) :
  pass_newest_first dt p (rev obs) [] sc ui = Completed obs' sc' ui'
  \/ pass_newest_first dt p (rev obs) [] sc ui = Collision obs' sc' ui' ->
  (List.length obs' <= List.length obs)%nat.
Proof.
  intros [E | E].
  - apply pass_completed in E. destruct E as (-> & _ & _).
    rewrite app_nil_r, rev_involutive. apply survivors_length.
  - apply pass_collision_array in E.
    destruct E as (older & o & newer & -> & _ & _ & _ & -> & _).
    rewrite !length_app. cbn [List.length].
    pose proof (survivors_length dt p newer). lia.
Qed.

(** X5.  A call of [update] pushes at most two objects, at the end of the
    array and unscored: nothing, an asteroid at [x = 840], an alien at
    [x = 860], or an asteroid followed by an alien; the array it leaves is
    at most two longer than the one it found.  While the asteroid timer
    stays at or below 285 ms and the alien timer at or below 479 ms, a
    millisecond under the lowest thresholds, nothing is spawned, whatever
    the score and the difficulty. *)
Theorem X5_spawns_per_tick :
  forall (dt : R) (rnd : nat -> R) (st : State),
    (exists news : list Obstacle,
        frame_obstacles dt rnd st = obstaclesRef st ++ news
        /\ (map type news = [] \/ map type news = [asteroid]
            \/ map type news = [alien] \/ map type news = [asteroid; alien])
        /\ Forall (fun o => scored o = false
                            /\ x o = match type o with
                                     | asteroid => 840 | alien => 860
                                     end) news
        /\ (List.length news <= 2)%nat)
    /\ (asteroidMs (spawnTimersRef st) + dt * 1000 <= 285 ->
        alienMs (spawnTimersRef st) + dt * 1000 <= 479 ->
        frame_obstacles dt rnd st = obstaclesRef st)
    /\ (exists st',
          update dt rnd st = Some st'
          /\ (List.length (obstaclesRef st')
              <= List.length (obstaclesRef st) + 2)%nat).
Proof.
  intros dt rnd st.
  destruct (frame_spawn dt rnd st) as [Hf _].
  assert (Hnews : exists news : list Obstacle,
             frame_obstacles dt rnd st = obstaclesRef st ++ news
             /\ (map type news = [] \/ map type news = [asteroid]
                 \/ map type news = [alien] \/ map type news = [asteroid; alien])
             /\ Forall (fun o => scored o = false
                                 /\ x o = match type o with
                                          | asteroid => 840 | alien => 860
                                          end) news
             /\ (List.length news <= 2)%nat).
  { eexists. split; [exact Hf |].
    assert (Ha : scored (frame_asteroid rnd st) = false
                 /\ x (frame_asteroid rnd st)
                    = match type (frame_asteroid rnd st) with
                      | asteroid => 840 | alien => 860
                      end).
    { unfold frame_asteroid, new_asteroid, WIDTH. cbn [scored x type].
      split; [reflexivity | lra]. }
    assert (Hb : scored (frame_alien dt rnd st) = false
                 /\ x (frame_alien dt rnd st)
                    = match type (frame_alien dt rnd st) with
                      | asteroid => 840 | alien => 860
                      end).
    { unfold frame_alien, new_alien, WIDTH. cbn [scored x type].
      split; [reflexivity | lra]. }
    destruct (asteroid_due dt st); destruct (alien_due dt st);
      cbn [app map List.length].
    - split; [tauto |]. split; [| lia].
      constructor; [exact Ha | constructor; [exact Hb | constructor]].
    - split; [tauto |]. split; [| lia].
      constructor; [exact Ha | constructor].
    - split; [tauto |]. split; [| lia].
      constructor; [exact Hb | constructor].
    - split; [tauto |]. split; [constructor | lia]. }
  split; [exact Hnews |]. split.
  - intros Ha Hb. rewrite Hf. unfold asteroid_due, alien_due.
    pose proof (interval_floors (difficultyRef st) (scoreRef st)) as [Fa Fb].
    rewrite (Rleb_false (astInterval _ _)), (Rleb_false (aliInterval _ _)).
    + cbn. apply app_nil_r.
    + destruct (difficultyRef st); cbn [baseAli] in Fb; lra.
    + destruct (difficultyRef st); cbn [baseAst] in Fa; lra.
  - destruct (update_spec dt rnd st) as (st' & E & _ & _ & _ & _ & _ & _ & _ & Hr).
    exists st'. split; [exact E |].
    destruct Hnews as (news & En & _ & _ & Hl).
    assert (Hlen : (List.length (frame_obstacles dt rnd st)
                    <= List.length (obstaclesRef st) + 2)%nat).
    { rewrite En, length_app. lia. }
    unfold frame_result in Hr.
    destruct (pass_newest_first _ _ _ _ _ _) as [obs s u | obs s u |] eqn:Er;
      [| | contradiction]; destruct Hr as (Ho & _); rewrite Ho.
    + pose proof (pass_length _ _ _ _ _ _ _ _ (or_introl Er)). lia.
    + pose proof (pass_length _ _ _ _ _ _ _ _ (or_intror Er)). lia.
Qed.

(** X6.  After every call of [update] that starts with a score that is
    not negative, each spawn timer is below the base interval of the
    difficulty (520/700/900 ms for asteroids, 800/1100/1400 ms for aliens),
    hence below 900 ms and 1400 ms; a timer that fires restarts from 0, and
    with [dt >= 0] the timers stay at or above 0. *)
Theorem X6_timers_below_base :
  forall (dt : R) (rnd : nat -> R) (st : State),
    exists st',
      update dt rnd st = Some st'
      /\ (0 <= scoreRef st ->
          asteroidMs (spawnTimersRef st') < baseAst (difficultyRef st)
          /\ alienMs (spawnTimersRef st') < baseAli (difficultyRef st)
          /\ asteroidMs (spawnTimersRef st') < 900
          /\ alienMs (spawnTimersRef st') < 1400)
      /\ (0 <= dt -> 0 <= asteroidMs (spawnTimersRef st) ->
          0 <= alienMs (spawnTimersRef st) ->
          0 <= asteroidMs (spawnTimersRef st')
          /\ 0 <= alienMs (spawnTimersRef st')).
Proof.
  intros dt rnd st.
  destruct (update_spec dt rnd st) as (st' & E & _ & Et & _).
  exists st'. split; [exact E |].
  destruct (frame_spawn dt rnd st) as [_ Ht]. rewrite Et, Ht.
  cbn [asteroidMs alienMs]. unfold asteroid_due, alien_due.
  pose proof (interval_floors (difficultyRef st) (scoreRef st)) as [Fa Fb].
  assert (Pa : 286 <= baseAst (difficultyRef st) * 0.55
               /\ baseAst (difficultyRef st) <= 900).
  { destruct (difficultyRef st); cbn [baseAst]; lra. }
  assert (Pb : 480 <= baseAli (difficultyRef st) * 0.6
               /\ baseAli (difficultyRef st) <= 1400).
  { destruct (difficultyRef st); cbn [baseAli]; lra. }
  assert (Ua : 0 <= scoreRef st ->
               astInterval (difficultyRef st) (scoreRef st)
               <= baseAst (difficultyRef st)).
  { intros Hs. unfold astInterval. apply Rmax_lub; lra. }
  assert (Ub : 0 <= scoreRef st ->
               aliInterval (difficultyRef st) (scoreRef st)
               <= baseAli (difficultyRef st)).
  { intros Hs. unfold aliInterval. apply Rmax_lub; lra. }
  unfold Rleb.
  destruct (Rle_dec (astInterval _ _) _); destruct (Rle_dec (aliInterval _ _) _);
    repeat split; intros; try specialize (Ua ltac:(assumption));
    try specialize (Ub ltac:(assumption)); lra.
Qed.

(** ** Player movement *)

Lemma clamp_nonexpansive (lo hi v a : R) :
  lo <= a <= hi -> Rabs (Rmax lo (Rmin hi v) - a) <= Rabs (v - a).
Proof.
  intros H. unfold Rmin. destruct (Rle_dec hi v);
    unfold Rmax;
    match goal with |- context [Rle_dec ?a ?b] => destruct (Rle_dec a b) end;
    unfold Rabs;
    repeat match goal with
           | |- context [Rcase_abs ?a] => destruct (Rcase_abs a)
           end; lra.
Qed.

Lemma clamp_inside (lo hi v : R) : lo <= v <= hi -> Rmax lo (Rmin hi v) = v.
Proof.
  intros H. rewrite Rmin_right by lra. apply Rmax_right. lra.
Qed.

Lemma horizontal_bound (ks : list string) : -1 <= horizontal ks <= 1.
Proof.
  unfold horizontal.
  destruct (has ks "arrowright" || has ks "d");
    destruct (has ks "arrowleft" || has ks "a"); lra.
Qed.

Lemma vertical_bound (ks : list string) : -1 <= vertical ks <= 1.
Proof.
  unfold vertical.
  destruct (has ks "arrowdown" || has ks "s");
    destruct (has ks "arrowup" || has ks "w"); lra.
Qed.

Lemma unit_component (dx dy : R) :
  0 < sqrt (dx * dx + dy * dy) ->
  -1 <= dx / sqrt (dx * dx + dy * dy) <= 1
  /\ -1 <= dy / sqrt (dx * dx + dy * dy) <= 1.
Proof.
  intros Hd.
  pose proof (length_ge_abs_l dx dy) as H1.
  pose proof (length_ge_abs_l (- dx) dy) as H2.
  pose proof (length_ge_abs_l dy dx) as H3.
  pose proof (length_ge_abs_l (- dy) dx) as H4.
  unfold length in *.
  replace (- dx * - dx + dy * dy) with (dx * dx + dy * dy) in H2 by lra.
  replace (dy * dy + dx * dx) with (dx * dx + dy * dy) in H3 by lra.
  replace (- dy * - dy + dx * dx) with (dx * dx + dy * dy) in H4 by lra.
  set (D := sqrt (dx * dx + dy * dy)) in *.
  assert (Hx : dx = dx / D * D) by (field; lra).
  assert (Hy : dy = dy / D * D) by (field; lra).
  split; split; nra.
Qed.

Lemma move_player_step (dt : R) (ks : list string) (ptr : Pointer) (p : Player) :
  0 <= dt -> in_field p ->
  Rabs (player_x (move_player dt ks ptr p) - player_x p) <= 2 * PLAYER_SPEED * dt
  /\ Rabs (player_y (move_player dt ks ptr p) - player_y p) <= 2 * PLAYER_SPEED * dt.
Proof.
  intros Hdt [Hx Hy]. unfold move_player.
  pose proof (horizontal_bound ks) as Hh. pose proof (vertical_bound ks) as Hv.
  set (px := player_x p + horizontal ks * PLAYER_SPEED * dt).
  set (py := player_y p + vertical ks * PLAYER_SPEED * dt).
  assert (Hpx : - (PLAYER_SPEED * dt) <= px - player_x p <= PLAYER_SPEED * dt).
  { unfold px, PLAYER_SPEED. nra. }
  assert (Hpy : - (PLAYER_SPEED * dt) <= py - player_y p <= PLAYER_SPEED * dt).
  { unfold py, PLAYER_SPEED. nra. }
  assert (Hs : 0 <= PLAYER_SPEED * dt) by (unfold PLAYER_SPEED; lra).
  assert (Hgoal : forall qx qy,
             - (2 * PLAYER_SPEED * dt) <= qx - player_x p <= 2 * PLAYER_SPEED * dt ->
             - (2 * PLAYER_SPEED * dt) <= qy - player_y p <= 2 * PLAYER_SPEED * dt ->
             Rabs (Rmax CLOUD_RADIUS (Rmin (WIDTH - CLOUD_RADIUS) qx) - player_x p)
             <= 2 * PLAYER_SPEED * dt
             /\ Rabs (Rmax CLOUD_RADIUS (Rmin (HEIGHT - CLOUD_RADIUS) qy) - player_y p)
                <= 2 * PLAYER_SPEED * dt).
  { intros qx qy Hqx Hqy. split.
    - eapply Rle_trans; [apply clamp_nonexpansive; exact Hx | apply Rabs_le; exact Hqx].
    - eapply Rle_trans; [apply clamp_nonexpansive; exact Hy | apply Rabs_le; exact Hqy]. }
  destruct (active ptr).
  - destruct (Rltb deadZone _) eqn:Hdz.
    + apply Rltb_spec in Hdz. unfold deadZone in Hdz.
      set (dx := pointer_x ptr - px) in *. set (dy := pointer_y ptr - py) in *.
      destruct (unit_component dx dy ltac:(lra)) as [Ux Uy].
      cbn [player_x player_y]. unfold PLAYER_SPEED in *. apply Hgoal; nra.
    + cbn [player_x player_y]. apply Hgoal; lra.
  - cbn [player_x player_y]. apply Hgoal; lra.
Qed.

(** X7.  With [dt >= 0] and the player in the field, a call of [update]
    moves the player by at most [2 * PLAYER_SPEED * dt] on each axis (keys
    and pointer add up); a frame, whose [dt] is at most 0.033, moves it by at
    most 17.16 on each axis when the timestamp does not run backwards. *)
Theorem X7_player_step_bound :
  forall (rnd : nat -> R) (st : State),
    in_field (playerRef st) ->
    (forall dt : R,
        0 <= dt ->
        exists st',
          update dt rnd st = Some st'
          /\ Rabs (player_x (playerRef st') - player_x (playerRef st)) <= 520 * dt
          /\ Rabs (player_y (playerRef st') - player_y (playerRef st)) <= 520 * dt)
    /\ (forall t : R,
          lastTimeRef st <= t ->
          exists st',
            loop t rnd st = Some st'
            /\ Rabs (player_x (playerRef st') - player_x (playerRef st)) <= 17.16
            /\ Rabs (player_y (playerRef st') - player_y (playerRef st)) <= 17.16).
Proof.
  intros rnd st Hin.
  assert (Hu : forall dt st0, playerRef st0 = playerRef st -> 0 <= dt ->
             exists st',
               update dt rnd st0 = Some st'
               /\ Rabs (player_x (playerRef st') - player_x (playerRef st)) <= 520 * dt
               /\ Rabs (player_y (playerRef st') - player_y (playerRef st)) <= 520 * dt).
  { intros dt st0 Ep Hdt.
    destruct (update_spec dt rnd st0) as (st' & E & Hp & _).
    exists st'. split; [exact E |]. rewrite Hp. unfold frame_player. rewrite Ep.
    pose proof (move_player_step dt (keysRef st0) (pointerRef st0) (playerRef st)
                  Hdt Hin) as [H1 H2].
    unfold PLAYER_SPEED in *. split; lra. }
  split.
  - intros dt Hdt. apply Hu; [reflexivity | exact Hdt].
  - intros t Ht. unfold loop, tick.
    cbn [set_lastTimeRef gameState lastTimeRef].
    destruct (gameState st).
    + eexists. split; [reflexivity |]. cbn [playerRef set_lastTimeRef].
      unfold Rminus. rewrite !Rplus_opp_r, Rabs_R0. lra.
    + set (dt := Rmin 0.033 ((t - lastTimeRef st) / 1000)).
      assert (Hdt : 0 <= dt <= 0.033).
      { unfold dt. split; [apply Rmin_glb; lra | apply Rmin_l]. }
      destruct (Hu dt (set_lastTimeRef t st) eq_refl ltac:(lra))
        as (st' & E & H1 & H2).
      exists st'. split; [exact E |]. split; lra.
Qed.

(** X7, in the sample round for a tick of 20 ms. *)
Lemma X7_witness :
  exists st',
    update Sample.dt Sample.rnd (Sample.round []) = Some st'
    /\ Rabs (player_x (playerRef st') - player_x (playerRef (Sample.round [])))
       <= 520 * Sample.dt
    /\ Rabs (player_y (playerRef st') - player_y (playerRef (Sample.round [])))
       <= 520 * Sample.dt.
Proof.
  destruct (X7_player_step_bound Sample.rnd (Sample.round [])) as [H _].
  - apply in_field_numbers. cbn. lra.
  - apply H. unfold Sample.dt. lra.
Defined.

(** X8.  With the pointer released and, on each axis, either no direction
    held or both opposite directions held (arrows or WASD, in any mix), a
    player in the field stays where it is: opposite keys cancel. *)
Theorem X8_opposite_keys_cancel :
  forall (dt : R) (rnd : nat -> R) (st : State),
    in_field (playerRef st) ->
    active (pointerRef st) = false ->
    (has (keysRef st) "arrowright" || has (keysRef st) "d")
    = (has (keysRef st) "arrowleft" || has (keysRef st) "a") ->
    (has (keysRef st) "arrowdown" || has (keysRef st) "s")
    = (has (keysRef st) "arrowup" || has (keysRef st) "w") ->
    exists st', update dt rnd st = Some st' /\ playerRef st' = playerRef st.
Proof.
  intros dt rnd st [Hx Hy] Ha Hh Hv.
  destruct (update_spec dt rnd st) as (st' & E & Hp & _).
  exists st'. split; [exact E |]. rewrite Hp.
  unfold frame_player, move_player, horizontal, vertical.
  rewrite Ha, Hh, Hv.
  assert (Z1 : forall b : bool, (if b then 1 else 0) - (if b then 1 else 0) = 0).
  { intros []; lra. }
  rewrite !Z1.
  replace (player_x (playerRef st) + 0 * PLAYER_SPEED * dt)
    with (player_x (playerRef st)) by lra.
  replace (player_y (playerRef st) + 0 * PLAYER_SPEED * dt)
    with (player_y (playerRef st)) by lra.
  rewrite !clamp_inside by assumption.
  destruct (playerRef st). reflexivity.
Qed.

(** X8, with left and right arrows held together in the sample round. *)
Lemma X8_witness :
  exists st',
    update Sample.dt Sample.rnd
      (set_keysRef ["arrowleft"; "arrowright"]%string (Sample.round [])) = Some st'
    /\ playerRef st' = Sample.p.
Proof.
  apply (X8_opposite_keys_cancel Sample.dt Sample.rnd
           (set_keysRef ["arrowleft"; "arrowright"]%string (Sample.round []))).
  - apply in_field_numbers. cbn. lra.
  - reflexivity.
  - reflexivity.
  - reflexivity.
Defined.

(** X9.  Pointer steering goes straight at the target: with no direction
    key in effect, the pointer held on a target inside the player's range
    [[20, 780] x [20, 480]], at a distance above the dead zone of 6 and of at
    least [PLAYER_SPEED * dt], a call of [update] brings the player exactly
    [PLAYER_SPEED * dt] closer to the target. *)
Theorem X9_pointer_approach :
  forall (dt : R) (rnd : nat -> R) (st : State),
    in_field (playerRef st) ->
    horizontal (keysRef st) = 0 -> vertical (keysRef st) = 0 ->
    active (pointerRef st) = true ->
    in_field (mkPlayer (pointer_x (pointerRef st)) (pointer_y (pointerRef st))) ->
    0 <= dt ->
    6 < length (pointer_x (pointerRef st) - player_x (playerRef st))
               (pointer_y (pointerRef st) - player_y (playerRef st)) ->
    PLAYER_SPEED * dt
    <= length (pointer_x (pointerRef st) - player_x (playerRef st))
              (pointer_y (pointerRef st) - player_y (playerRef st)) ->
    exists st',
      update dt rnd st = Some st'
      /\ length (pointer_x (pointerRef st) - player_x (playerRef st'))
                (pointer_y (pointerRef st) - player_y (playerRef st'))
         = length (pointer_x (pointerRef st) - player_x (playerRef st))
                  (pointer_y (pointerRef st) - player_y (playerRef st))
           - PLAYER_SPEED * dt.
Proof.
  intros dt rnd st [Hx Hy] Hh Hv Ha [Htx Hty] Hdt H6 Hs.
  cbn [player_x player_y] in Htx, Hty.
  destruct (update_spec dt rnd st) as (st' & E & Hp & _).
  exists st'. split; [exact E |]. rewrite Hp.
  unfold frame_player, move_player. rewrite Ha, Hh, Hv.
  replace (player_x (playerRef st) + 0 * PLAYER_SPEED * dt)
    with (player_x (playerRef st)) by lra.
  replace (player_y (playerRef st) + 0 * PLAYER_SPEED * dt)
    with (player_y (playerRef st)) by lra.
  unfold length in *.
  set (px := player_x (playerRef st)) in *.
  set (py := player_y (playerRef st)) in *.
  set (dx := pointer_x (pointerRef st) - px) in *.
  set (dy := pointer_y (pointerRef st) - py) in *.
  set (D := sqrt (dx * dx + dy * dy)) in *.
  rewrite (Rltb_true deadZone D) by (unfold deadZone; exact H6).
  set (s := PLAYER_SPEED * dt) in *.
  assert (Hs0 : 0 <= s) by (unfold s, PLAYER_SPEED; lra).
  assert (HD : 0 < D) by lra.
  set (k := s / D).
  assert (Hk : 0 <= k <= 1).
  { unfold k. split.
    - apply Rmult_le_pos; [exact Hs0 | left; apply Rinv_0_lt_compat; exact HD].
    - apply (Rmult_le_reg_r D); [exact HD |].
      replace (s / D * D) with s by (field; lra). lra. }
  assert (Ex : px + dx / D * PLAYER_SPEED * dt = px + dx * k).
  { unfold k, s. field. lra. }
  assert (Ey : py + dy / D * PLAYER_SPEED * dt = py + dy * k).
  { unfold k, s. field. lra. }
  rewrite Ex, Ey.
  unfold WIDTH, HEIGHT, CLOUD_RADIUS in *.
  rewrite !clamp_inside by (unfold dx, dy in *; nra).
  cbn [player_x player_y].
  replace ((pointer_x (pointerRef st) - (px + dx * k))
           * (pointer_x (pointerRef st) - (px + dx * k))
           + (pointer_y (pointerRef st) - (py + dy * k))
             * (pointer_y (pointerRef st) - (py + dy * k)))
    with ((dx * dx + dy * dy) * ((1 - k) * (1 - k)))
    by (unfold dx, dy; ring).
  rewrite sqrt_mult by nra.
  rewrite (sqrt_square (1 - k)) by lra.
  fold D. unfold k. field. lra.
Qed.

(** X9, with the pointer held 100 to the right of the player of the sample
    round. *)
Lemma X9_witness :
  exists st',
    update Sample.dt Sample.rnd
      (set_pointerRef (mkPointer true 220 250) (Sample.round [])) = Some st'
    /\ length (220 - player_x (playerRef st')) (250 - player_y (playerRef st'))
       = length (220 - 120) (250 - 250) - PLAYER_SPEED * Sample.dt.
Proof.
  assert (L : length (220 - 120) (250 - 250) = 100).
  { unfold length.
    replace ((220 - 120) * (220 - 120) + (250 - 250) * (250 - 250))
      with (100 * 100) by lra.
    apply sqrt_square. lra. }
  apply (X9_pointer_approach Sample.dt Sample.rnd
           (set_pointerRef (mkPointer true 220 250) (Sample.round []))).
  - apply in_field_numbers. cbn. lra.
  - unfold horizontal, has.
    cbn [set_pointerRef Sample.round keysRef existsb orb]. lra.
  - unfold vertical, has.
    cbn [set_pointerRef Sample.round keysRef existsb orb]. lra.
  - reflexivity.
  - apply in_field_numbers. cbn. lra.
  - unfold Sample.dt. lra.
  - cbn [set_pointerRef Sample.round pointerRef playerRef pointer_x pointer_y
         Sample.p player_x player_y].
    rewrite L. lra.
  - cbn [set_pointerRef Sample.round pointerRef playerRef pointer_x pointer_y
         Sample.p player_x player_y].
    rewrite L. unfold PLAYER_SPEED, Sample.dt. lra.
Defined.

(** ** Keys *)







Lemma startGame_after_restart (now : R) (st : State) :
  startGame now (setGameState playing (restart now st)) = startGame now st.
Proof. reflexivity. Qed.

(** X11.  Space and Enter (by [e.code]) start a round from the menu and from
    game over alike: the state is that of a fresh round in phase Playing,
    with the difficulty kept and the key recorded.  Any other key, and any
    key during a round, only records the key and allows speech. *)
Theorem X11_start_keys :
  forall (key code : string) (now : R) (st : State),
    (start_code code = true <-> code = "Space"%string \/ code = "Enter"%string)
    /\ (start_code code = true -> phase st <> Playing ->
        handleKeyDown key code now st
        = startGame now
            (set_speechAllowedRef true
               (set_keysRef (keys_add (toLowerCase key) (keysRef st)) st))
        /\ phase (handleKeyDown key code now st) = Playing
        /\ scoreRef (handleKeyDown key code now st) = 0
        /\ obstaclesRef (handleKeyDown key code now st) = []
        /\ playerRef (handleKeyDown key code now st) = mkPlayer 120 (HEIGHT / 2)
        /\ gameOver (handleKeyDown key code now st) = false
        /\ difficulty (handleKeyDown key code now st) = difficulty st)
    /\ (start_code code = false \/ (gameState st = playing /\ gameOver st = false) ->
        handleKeyDown key code now st
        = set_speechAllowedRef true
            (set_keysRef (keys_add (toLowerCase key) (keysRef st)) st)).
Proof.
  intros key code now st. split; [| split].
  - unfold start_code. rewrite orb_true_iff, !String.eqb_eq. tauto.
  - intros Hc Hp. unfold phase in Hp.
    destruct (gameState st) eqn:G; [| contradiction].
    assert (E : handleKeyDown key code now st
                = startGame now
                    (set_speechAllowedRef true
                       (set_keysRef (keys_add (toLowerCase key) (keysRef st)) st))).
    { unfold handleKeyDown. rewrite G, Hc, andb_true_r.
      generalize (set_speechAllowedRef true
                    (set_keysRef (keys_add (toLowerCase key) (keysRef st)) st)).
      intros st2. destruct (gameOver st); [apply startGame_after_restart | reflexivity]. }
    rewrite E.
    generalize (keys_add (toLowerCase key) (keysRef st)). intros ks.
    repeat split; reflexivity.
  - intros [Hc | [G Ho]]; unfold handleKeyDown.
    + rewrite Hc, andb_false_r. destruct (gameState st); reflexivity.
    + rewrite G, Ho. reflexivity.
Qed.

(** X11, for Enter in the initial state. *)
Lemma X11_witness :
  phase (handleKeyDown "Enter" "Enter" 0 (initial_state true)) = Playing.
Proof.
  destruct (X11_start_keys "Enter" "Enter" 0 (initial_state true))
    as (_ & H & _).
  apply H; [reflexivity | discriminate].
Defined.

(** ** Sessions: what every reachable state satisfies *)

Lemma scrollSpeed_range (d : Difficulty) (sc : R) :
  0 <= sc -> 170 <= scrollSpeed d sc <= 510.
Proof.
  intros Hs. unfold scrollSpeed, speedBoost, BASE_SCROLL_SPEED, Rmin.
  destruct (Rle_dec 260 (sc / 20 * 9)); destruct d; cbn [diffMult]; lra.
Qed.

Lemma frame_asteroid_wf (rnd : nat -> R) (st : State) :
  uniform rnd -> 0 <= scoreRef st -> obstacle_wf (frame_asteroid rnd st).
Proof.
  intros U Hs.
  pose proof (scrollSpeed_range (difficultyRef st) _ Hs) as Hv.
  pose proof (U 0%nat) as U0. pose proof (U 1%nat) as U1.
  pose proof (U 2%nat) as U2. pose proof (U 3%nat) as U3.
  unfold frame_asteroid, new_asteroid, obstacle_wf, rand, WIDTH, HEIGHT.
  cbn [type x y radius speed wobblePhase].
  set (v := scrollSpeed (difficultyRef st) (scoreRef st)) in *.
  set (j := 1.0 + (rnd 0%nat - 0.5) * 0.2).
  set (f := rnd (1 + 2)%nat * (1.25 - 0.95) + 0.95).
  assert (Hj : 0.9 <= j <= 1.1) by (unfold j; lra).
  assert (Hf : 0.95 <= f <= 1.25) by (unfold f; cbn [Nat.add]; lra).
  assert (Hvj : 153 <= v * j <= 561) by nra.
  split; [cbn [Nat.add]; lra |].
  split; [cbn [Nat.add]; lra |].
  split; [nra | cbn [Nat.add]; lra].
Qed.

Lemma frame_alien_wf (dt : R) (rnd : nat -> R) (st : State) :
  uniform rnd -> 0 <= scoreRef st -> obstacle_wf (frame_alien dt rnd st).
Proof.
  intros U Hs.
  pose proof (scrollSpeed_range (difficultyRef st) _ Hs) as Hv.
  pose proof PI_RGT_0 as Hpi.
  unfold frame_alien, new_alien, obstacle_wf, rand, WIDTH, HEIGHT.
  cbn [type x y radius speed wobblePhase].
  set (k := if asteroid_due dt st then 4%nat else 0%nat).
  pose proof (U k) as U0. pose proof (U (S k)) as U1.
  pose proof (U (S k + 1)%nat) as U2. pose proof (U (S k + 2)%nat) as U3.
  pose proof (U (S k + 3)%nat) as U4.
  set (v := scrollSpeed (difficultyRef st) (scoreRef st)) in *.
  set (j := 1.0 + (rnd k - 0.5) * 0.2).
  set (f := rnd (S k + 2)%nat * (1.2 - 0.95) + 0.95).
  assert (Hj : 0.9 <= j <= 1.1) by (unfold j; lra).
  assert (Hf : 0.95 <= f <= 1.2) by (unfold f; lra).
  assert (Hvj : 171.36 <= v * 1.12 * j <= 628.32) by nra.
  split; [lra |].
  split; [lra |].
  split; [nra | nra].
Qed.

Lemma frame_obstacles_wf (dt : R) (rnd : nat -> R) (st : State) :
  uniform rnd -> 0 <= scoreRef st -> Forall obstacle_wf (obstaclesRef st) ->
  Forall obstacle_wf (frame_obstacles dt rnd st).
Proof.
  intros U Hs F. destruct (frame_spawn dt rnd st) as [-> _].
  apply Forall_app. split; [exact F |].
  apply Forall_app. split.
  - destruct (asteroid_due dt st); constructor;
      [apply frame_asteroid_wf; assumption | constructor].
  - destruct (alien_due dt st); constructor;
      [apply frame_alien_wf; assumption | constructor].
Qed.

Lemma moved_wf (dt : R) (p : Player) (o : Obstacle) :
  obstacle_wf o -> culled (advance dt o) = false -> obstacle_wf (moved dt p o).
Proof.
  intros [_ Hw] Hc.
  assert (Hx : - radius (advance dt o) * 2 <= x (advance dt o)).
  { unfold culled, Rltb in Hc.
    destruct (Rlt_dec (x (advance dt o)) (- radius (advance dt o) * 2));
      [discriminate | lra]. }
  assert (E : moved dt p o = advance dt o
              \/ moved dt p o = set_obstacle_scored true (advance dt o)).
  { unfold moved. destruct (passes p _); auto. }
  unfold obstacle_wf.
  destruct E as [-> | ->]; unfold advance in *; destruct (type o);
    cbn [type x y radius speed wobblePhase set_obstacle_scored] in *;
    split; assumption.
Qed.

Lemma survivors_wf (dt : R) (p : Player) (l : list Obstacle) :
  Forall obstacle_wf l -> Forall obstacle_wf (survivors dt p l).
Proof.
  intros F. unfold survivors. apply Forall_map.
  apply Forall_forall. intros o Hin. apply filter_In in Hin.
  destruct Hin as [Hin Hs]. rewrite Forall_forall in F.
  apply moved_wf; [apply F; exact Hin |].
  unfold stays in Hs. destruct (culled (advance dt o)); [discriminate | reflexivity].
Qed.

Lemma update_wf (dt : R) (rnd : nat -> R) (st st' : State) :
  uniform rnd -> 0 <= scoreRef st -> Forall obstacle_wf (obstaclesRef st) ->
  update dt rnd st = Some st' -> Forall obstacle_wf (obstaclesRef st').
Proof.
  intros U Hs F E.
  destruct (update_spec dt rnd st) as (st1 & E1 & _ & _ & _ & _ & _ & _ & _ & Hr).
  rewrite E in E1. inversion E1; subst st1. clear E1.
  pose proof (frame_obstacles_wf dt rnd st U Hs F) as Ff.
  unfold frame_result in Hr.
  destruct (pass_newest_first _ _ _ _ _ _) as [obs s u | obs s u |] eqn:Er;
    [| | contradiction]; destruct Hr as (-> & _).
  - apply pass_completed in Er. destruct Er as (-> & _ & _).
    rewrite app_nil_r, rev_involutive. apply survivors_wf. exact Ff.
  - apply pass_collision_array in Er.
    destruct Er as (older & o & newer & Eo & _ & Hc & _ & -> & _).
    rewrite Eo in Ff. apply Forall_app in Ff. destruct Ff as [Fo Fn].
    inversion Fn as [| ? ? Ho Fn']; subst.
    apply Forall_app. split; [exact Fo |].
    constructor; [apply moved_wf; assumption | apply survivors_wf; exact Fn'].
Qed.

(** What an event other than a frame does to the array, the score and the
    speech flags. *)
Lemma handle_other (e : Event) (st st' : State) :
  (forall t rnd, e <> Frame t rnd) -> handle e st = Some st' ->
  (obstaclesRef st' = obstaclesRef st /\ score st' = score st
   \/ obstaclesRef st' = [] /\ score st' = 0%Z)
  /\ speechQueue st' = speechQueue st
  /\ (quiet e -> speechAllowedRef st' = speechAllowedRef st).
Proof.
  intros Hf E. destruct e; cbn [handle] in E;
    try (inversion E; subst st'; clear E).
  - unfold handleKeyDown.
    generalize (keys_add (toLowerCase key) (keysRef st)). intros ks.
    destruct (gameState st); destruct (gameOver st && start_code code);
      try destruct (start_code code);
      (split; [| split; [reflexivity | intros []]]);
      first [left; split; reflexivity | right; split; reflexivity].
  - split; [left; split; reflexivity | split; [reflexivity | reflexivity]].
  - split; [left; split; reflexivity | split; [reflexivity | intros []]].
  - unfold onMove. destruct (active (pointerRef st));
      (split; [left; split; reflexivity | split; reflexivity]).
  - split; [left; split; reflexivity | split; reflexivity].
  - unfold click_start. destruct (gameState st);
      (split; [| split; reflexivity]);
      first [left; split; reflexivity | right; split; reflexivity].
  - unfold click_mute. destruct (gameState st);
      (split; [left; split; reflexivity | split; reflexivity]).
  - unfold click_difficulty. destruct (gameState st);
      (split; [left; split; reflexivity | split; reflexivity]).
  - exfalso. exact (Hf t rnd eq_refl).
Qed.

Lemma tick_cases (dt : R) (rnd : nat -> R) (st st' : State) :
  tick dt rnd st = Some st' ->
  st' = st \/ (gameState st = playing /\ update dt rnd st = Some st').
Proof.
  unfold tick. destruct (gameState st); intros E.
  - left. inversion E. reflexivity.
  - right. split; [reflexivity | exact E].
Qed.

(** X12.  In every state of a session, every object of the array has its
    [x] at or right of [-2 * radius]; an asteroid has its radius in [14, 28],
    its speed in [145.35, 701.25] and its [y] in [40, 460], where it was
    spawned; an alien has its radius in [18, 26], its speed in
    [162.792, 753.984] and its wobble phase in [0, 2 pi].  In particular
    every object moves towards the player's side. *)
Theorem X12_objects_well_formed :
  forall st : State, reachable st -> Forall obstacle_wf (obstaclesRef st).
Proof.
  intros st Hr. induction Hr as [synth | e st st' Hr IH W E].
  - constructor.
  - pose proof (reachable_invariant st Hr) as (_ & _ & Hn & Hs & _).
    assert (H0 : 0 <= scoreRef st) by (rewrite Hs; apply IZR_le; exact Hn).
    destruct e;
      try (match type of E with handle ?ev _ = _ =>
           destruct (handle_other ev st st' ltac:(intros ? ?; discriminate) E)
             as ([[-> _] | [-> _]] & _) end; [exact IH | constructor]).
    cbn [handle well_formed] in *. unfold loop in E.
    apply tick_cases in E. destruct E as [-> | [_ E]]; [exact IH |].
    eapply update_wf; [exact W | | | exact E]; assumption.
Qed.

(** X12, in the state in which a first round starts. *)
Lemma X12_witness :
  Forall obstacle_wf (obstaclesRef (startGame 0 (initial_state true))).
Proof.
  apply X12_objects_well_formed.
  apply (reach_event (ClickStart 0) (initial_state true)).
  - apply reach_init.
  - exact I.
  - reflexivity.
Defined.

Lemma score_form_0 : score_form 0.
Proof. exists 0%nat, 0%nat. reflexivity. Qed.

Lemma step_ui_cases (dt : R) (p : Player) (o : Obstacle) (n : Z) :
  step_ui (step dt p o (IZR n) n) = n
  \/ step_ui (step dt p o (IZR n) n) = (n + 5)%Z
  \/ step_ui (step dt p o (IZR n) n) = (n + 8)%Z.
Proof.
  rewrite step_unfold. cbv zeta. unfold gained, points.
  assert (H5 : Zfloor (IZR n + 5) = (n + 5)%Z)
    by (rewrite <- plus_IZR; apply ZfloorZ).
  assert (H8 : Zfloor (IZR n + 8) = (n + 8)%Z)
    by (rewrite <- plus_IZR; apply ZfloorZ).
  destruct (passes p (advance dt o)); destruct (culled _);
    try destruct (collides p _); destruct (type o);
    cbn [step_ui]; rewrite ?H5, ?H8; auto.
Qed.

Lemma score_form_step (n m : Z) :
  score_form n -> m = n \/ m = (n + 5)%Z \/ m = (n + 8)%Z -> score_form m.
Proof.
  intros (a & b & ->) [-> | [-> | ->]].
  - exists a, b. reflexivity.
  - exists (S a), b. lia.
  - exists a, (S b). lia.
Qed.

Lemma pass_score_form (dt : R) (p : Player) (todo : list Obstacle) :
  forall (done : list Obstacle) (n : Z),
    score_form n ->
    match pass_newest_first dt p todo done (IZR n) n with
    | Completed _ _ ui' | Collision _ _ ui' => score_form ui'
    | TypeError => True
    end.
Proof.
  induction todo as [| o rest IH]; intros done n Hn; cbn [pass_newest_first].
  - exact Hn.
  - pose proof (step_integral dt p o n) as [Hs _].
    pose proof (step_ui_cases dt p o n) as Hc.
    destruct (step dt p o (IZR n) n) as [s u | o' s u | o' s u];
      cbn [step_score step_ui] in Hs, Hc; subst s;
      pose proof (score_form_step n u Hn Hc) as Hu.
    + apply IH. exact Hu.
    + apply IH. exact Hu.
    + exact Hu.
Qed.

(** X13.  In every state of a session the score is a non-negative integer
    that is a sum of fives and eights (so 1, 2, 3, 4, 6, 7, 9, 11, ... never
    occur), and the displayed [score] is [scoreRef.current] itself:
    [Math.floor] never cuts anything off. *)
Theorem X13_score_values :
  forall st : State,
    reachable st ->
    score_form (score st)
    /\ scoreRef st = IZR (score st)
    /\ Zfloor (scoreRef st) = score st
    /\ (0 <= score st)%Z.
Proof.
  intros st Hr.
  pose proof (reachable_invariant st Hr) as (_ & _ & Hn & Hs & _).
  split; [| split; [exact Hs | split; [rewrite Hs; apply ZfloorZ | exact Hn]]].
  clear Hn Hs.
  induction Hr as [synth | e st st' Hr IH W E].
  - apply score_form_0.
  - pose proof (reachable_invariant st Hr) as (_ & _ & _ & Hs & _).
    destruct e;
      try (match type of E with handle ?ev _ = _ =>
           destruct (handle_other ev st st' ltac:(intros ? ?; discriminate) E)
             as ([[_ ->] | [_ ->]] & _) end; [exact IH | apply score_form_0]).
    cbn [handle] in E. unfold loop in E.
    apply tick_cases in E. destruct E as [-> | [_ E]]; [exact IH |].
    set (dt := Rmin 0.033 ((t - lastTimeRef st) / 1000)) in *.
    destruct (update_spec dt rnd (set_lastTimeRef t st))
      as (st1 & E1 & _ & _ & _ & _ & _ & _ & _ & Hres).
    rewrite E in E1. inversion E1; subst st1. clear E1.
    unfold frame_result in Hres.
    cbn [set_lastTimeRef scoreRef score] in Hres.
    pose proof (pass_score_form dt (frame_player dt (set_lastTimeRef t st))
                  (rev (frame_obstacles dt rnd (set_lastTimeRef t st)))
                  [] (score st) IH) as Hf.
    rewrite <- Hs in Hf.
    destruct (pass_newest_first _ _ _ _ _ _) as [obs s u | obs s u |];
      [| | contradiction]; destruct Hres as (_ & _ & -> & _); exact Hf.
Qed.

(** X13, in the state in which a first round starts. *)
Lemma X13_witness :
  score_form (score (startGame 0 (initial_state true)))
  /\ scoreRef (startGame 0 (initial_state true))
     = IZR (score (startGame 0 (initial_state true)))
  /\ Zfloor (scoreRef (startGame 0 (initial_state true)))
     = score (startGame 0 (initial_state true))
  /\ (0 <= score (startGame 0 (initial_state true)))%Z.
Proof.
  apply X13_score_values.
  apply (reach_event (ClickStart 0) (initial_state true)).
  - apply reach_init.
  - exact I.
  - reflexivity.
Defined.

(** X14.  In every state of a session [gameOver] is set exactly in phase
    GameOver: a round that is being played never shows the game-over
    screen, and after a collision the menu is up again until Space, Enter
    or Start begins a new round. *)
Theorem X14_game_over_flag :
  forall st : State,
    reachable st ->
    (gameOver st = true <-> phase st = GameOver)
    /\ (gameOver st = true -> gameState st = menu)
    /\ (phase st = Playing -> gameOver st = false).
Proof.
  intros st Hr.
  pose proof (reachable_invariant st Hr) as (_ & _ & _ & _ & Hg).
  unfold phase. destruct (gameState st) eqn:G.
  - destruct (gameOver st); repeat split; intros; congruence.
  - rewrite (Hg eq_refl). repeat split; intros; congruence.
Qed.

(** X14, after the start of a first round. *)
Lemma X14_witness :
  gameOver (startGame 0 (initial_state true)) = false.
Proof.
  destruct (X14_game_over_flag (startGame 0 (initial_state true)))
    as (_ & _ & H).
  - apply (reach_event (ClickStart 0) (initial_state true)).
    + apply reach_init.
    + exact I.
    + reflexivity.
  - apply H. reflexivity.
Defined.

(** X15.  Until a key is pressed or the canvas is pressed, speech is not
    allowed and nothing is handed to the speech synthesiser: a session run
    only with the Start, Mute and difficulty buttons, pointer moves and
    releases, key releases and frames never speaks, whatever happens in its
    rounds. *)
Theorem X15_no_speech_before_gesture :
  forall st : State,
    reachable_via quiet st ->
    speechAllowedRef st = false /\ speechQueue st = [].
Proof.
  intros st Hr. induction Hr as [synth | e st st' Hr [IHa IHq] Q E].
  - split; reflexivity.
  - destruct e;
      try (match type of E with handle ?ev _ = _ =>
           destruct (handle_other ev st st' ltac:(intros ? ?; discriminate) E)
             as (_ & Hq & Ha) end; rewrite Hq, (Ha Q); split; assumption).
    cbn [handle] in E. unfold loop in E.
    apply tick_cases in E. destruct E as [-> | [_ E]]; [split; assumption |].
    set (dt := Rmin 0.033 ((t - lastTimeRef st) / 1000)) in *.
    pose proof (update_untouched _ _ _ _ E) as (_ & _ & _ & _ & _ & Ha & _).
    cbn [set_lastTimeRef speechAllowedRef] in Ha.
    split; [rewrite Ha; exact IHa |].
    destruct (update_spec dt rnd (set_lastTimeRef t st))
      as (st1 & E1 & _ & _ & _ & _ & _ & _ & _ & Hres).
    rewrite E in E1. inversion E1; subst st1. clear E1.
    destruct (frame_result _ _ _) as [obs s u | obs s u |]; [| | contradiction].
    + destruct Hres as (_ & _ & _ & _ & _ & _ & ->). exact IHq.
    + destruct Hres as (_ & _ & _ & _ & _ & _ & ->).
      unfold queue_after_speak.
      cbn [set_lastTimeRef speechAllowedRef isMutedRef speechQueue speechSynthesis].
      rewrite IHa. exact IHq.
Qed.

(** X15, after a click on Start in the initial state. *)
Lemma X15_witness :
  speechAllowedRef (startGame 0 (initial_state true)) = false
  /\ speechQueue (startGame 0 (initial_state true)) = [].
Proof.
  apply X15_no_speech_before_gesture.
  apply (via_event quiet (ClickStart 0) (initial_state true)).
  - apply via_init.
  - exact I.
  - reflexivity.
Defined.

(** ** More on the obstacle loop *)

(** X16.  In one iteration an alien's [y] changes by at most [40 * |dt|],
    whatever its age and wobble phase, and an asteroid's [y] does not change
    at all; neither the advance nor pass-scoring changes the type, the
    radius, the speed or the wobble phase of an object. *)
Theorem X16_vertical_drift_bound :
  forall (dt : R) (p : Player) (o : Obstacle),
    Rabs (y (moved dt p o) - y o) <= 40 * Rabs dt
    /\ (type o = asteroid -> y (moved dt p o) = y o)
    /\ x (moved dt p o) = x o - speed o * dt
    /\ type (moved dt p o) = type o
    /\ radius (moved dt p o) = radius o
    /\ speed (moved dt p o) = speed o
    /\ wobblePhase (moved dt p o) = wobblePhase o.
Proof.
  intros dt p o.
  assert (E : moved dt p o = advance dt o
              \/ moved dt p o = set_obstacle_scored true (advance dt o)).
  { unfold moved. destruct (passes p _); auto. }
  assert (Hy : y (moved dt p o) = y (advance dt o)).
  { destruct E as [-> | ->]; reflexivity. }
  rewrite Hy.
  split.
  - unfold advance. destruct (type o); cbn [y].
    + unfold Rminus. rewrite Rplus_opp_r, Rabs_R0.
      pose proof (Rabs_pos dt). lra.
    + pose proof (SIN_bound ((life o * 2 + wobblePhase o) * 2.2)) as [H1 H2].
      set (s := sin ((life o * 2 + wobblePhase o) * 2.2)) in *.
      replace (y o + s * 40 * dt - y o) with (s * 40 * dt) by lra.
      unfold Rabs. destruct (Rcase_abs (s * 40 * dt)); destruct (Rcase_abs dt); nra.
  - split.
    + intros Ht. unfold advance. rewrite Ht. reflexivity.
    + destruct E as [-> | ->]; unfold advance; destruct (type o);
        repeat split; reflexivity.
Qed.

(** X17.  With the player in the field, an object with a radius that is
    not negative and whose advanced [x] is below [-radius * 2] is removed, and
    if it had not scored before it scores in that same iteration: no object
    leaves by the trailing edge without having been counted, and none is
    counted twice. *)
Theorem X17_culled_objects_are_counted :
  forall (dt : R) (p : Player) (o : Obstacle) (sc : R) (ui : Z),
    in_field p -> 0 <= radius o ->
    x o - speed o * dt < - radius o * 2 ->
    step_obstacle (step dt p o sc ui) = None
    /\ step_score (step dt p o sc ui)
       = sc + (if scored o then 0
               else match type o with alien => 8 | asteroid => 5 end).
Proof.
  intros dt p o sc ui [[Hx _] _] Hr Hc.
  assert (Hcull : culled (advance dt o) = true).
  { apply culled_true. rewrite advance_x, advance_radius. exact Hc. }
  assert (Hp : passes p (advance dt o) = negb (scored o)).
  { unfold passes. rewrite advance_scored, advance_x, advance_radius.
    rewrite Rltb_true by (unfold CLOUD_RADIUS in *; lra).
    apply andb_true_r. }
  rewrite step_unfold. cbv zeta. rewrite Hcull. cbn [step_obstacle step_score].
  split; [reflexivity |].
  unfold gained, points. rewrite Hp.
  destruct (scored o); reflexivity.
Qed.

(** X17, at the sample asteroid [leaver] with its flag cleared: it leaves
    and scores 5. *)
Lemma X17_witness :
  step_obstacle
    (step Sample.dt Sample.p (set_obstacle_scored false Sample.leaver) 0 0) = None
  /\ step_score
       (step Sample.dt Sample.p (set_obstacle_scored false Sample.leaver) 0 0)
     = 0 + 5.
Proof.
  apply (X17_culled_objects_are_counted Sample.dt Sample.p
           (set_obstacle_scored false Sample.leaver) 0 0).
  - apply in_field_numbers. cbn. lra.
  - cbn. lra.
  - unfold Sample.dt, Sample.leaver. by_numbers.
Defined.

(** X18.  A call of [update] never changes the keys held, the pointer, the
    difficulty, the frame timestamp, the mute flag or the speech permission.
    Either it leaves [gameOver], [gameState] and the speech collaborator as
    they were, or it ends the round: then it sets [gameOver], puts
    [gameState] to ['menu'] and calls [speak] exactly once. *)
Theorem X18_update_frame_condition :
  forall (dt : R) (rnd : nat -> R) (st st' : State),
    update dt rnd st = Some st' ->
    keysRef st' = keysRef st
    /\ pointerRef st' = pointerRef st
    /\ difficulty st' = difficulty st
    /\ difficultyRef st' = difficultyRef st
    /\ lastTimeRef st' = lastTimeRef st
    /\ isMutedRef st' = isMutedRef st
    /\ speechAllowedRef st' = speechAllowedRef st
    /\ ((gameOver st' = gameOver st /\ gameState st' = gameState st
         /\ speakCalls st' = speakCalls st /\ speechQueue st' = speechQueue st)
        \/ (gameOver st' = true /\ gameState st' = menu
            /\ speakCalls st'
               = game_over_text (Zfloor (scoreRef st')) :: speakCalls st)).
Proof.
  intros dt rnd st st' E.
  pose proof (update_untouched dt rnd st st' E)
    as (H1 & H2 & H3 & H4 & H5 & H6 & H7 & _).
  repeat (split; [assumption |]).
  destruct (update_spec dt rnd st) as (st1 & E1 & _ & _ & _ & _ & _ & _ & _ & Hr).
  rewrite E in E1. inversion E1; subst st1. clear E1.
  destruct (frame_result dt rnd st) as [obs s u | obs s u |]; [| | contradiction].
  - left. tauto.
  - right. destruct Hr as (_ & -> & _ & Hg & Hs & Hc & _). tauto.
Qed.

(** X18, for the tick that ends the sample round. *)
Lemma X18_witness :
  exists st',
    update Sample.dt Sample.rnd (Sample.round [Sample.collider]) = Some st'
    /\ keysRef st' = [] /\ difficulty st' = easy.
Proof.
  destruct sample_crash as (st' & E & _).
  exists st'. split; [exact E |].
  destruct (X18_update_frame_condition _ _ _ _ E) as (Hk & _ & Hd & _).
  split; [exact Hk | exact Hd].
Defined.

(** ** Canvas, pointer coordinates and the music timer *)





(** X20.  For a canvas rectangle of positive size, [toVirtual] maps the
    rectangle onto the field: its top-left corner goes to (0, 0), its
    bottom-right corner to (800, 500), and a position is inside the
    rectangle exactly if its image is inside [[0, 800] x [0, 500]].  A press
    on the canvas makes the pointer active at the image of the position. *)
Theorem X20_toVirtual :
  forall (cx cy : R) (rect : Rect) (st : State),
    0 < rect_width rect -> 0 < rect_height rect ->
    toVirtual (rect_left rect) (rect_top rect) rect = (0, 0)
    /\ toVirtual (rect_left rect + rect_width rect)
         (rect_top rect + rect_height rect) rect = (800, 500)
    /\ (0 <= fst (toVirtual cx cy rect) <= 800
        <-> rect_left rect <= cx <= rect_left rect + rect_width rect)
    /\ (0 <= snd (toVirtual cx cy rect) <= 500
        <-> rect_top rect <= cy <= rect_top rect + rect_height rect)
    /\ pointerRef (pointerdown cx cy rect st)
       = mkPointer true (fst (toVirtual cx cy rect)) (snd (toVirtual cx cy rect)).
Proof.
  intros cx cy rect st Hw Hh. unfold toVirtual, pointerdown, WIDTH, HEIGHT.
  cbn [fst snd].
  set (l := rect_left rect). set (t := rect_top rect).
  set (w := rect_width rect) in *. set (h := rect_height rect) in *.
  assert (Hiw : 0 < / w) by (apply Rinv_0_lt_compat; exact Hw).
  assert (Hih : 0 < / h) by (apply Rinv_0_lt_compat; exact Hh).
  split; [f_equal; field; lra |].
  split; [f_equal; field; lra |].
  assert (Ex : cx - l = (cx - l) / w * w) by (field; lra).
  assert (Ey : cy - t = (cy - t) / h * h) by (field; lra).
  split; [| split].
  - set (u := (cx - l) / w) in *. split; intros H; nra.
  - set (u := (cy - t) / h) in *. split; intros H; nra.
  - reflexivity.
Qed.

(** X20, for a canvas of 400 x 250 CSS pixels at (10, 20) pressed in its
    centre. *)
Lemma X20_witness :
  toVirtual 10 20 (mkRect 10 20 400 250) = (0, 0)
  /\ toVirtual (10 + 400) (20 + 250) (mkRect 10 20 400 250) = (800, 500).
Proof.
  destruct (X20_toVirtual 210 145 (mkRect 10 20 400 250) (initial_state true))
    as (H1 & H2 & _).
  - cbn. lra.
  - cbn. lra.
  - split; [exact H1 | exact H2].
Defined.

Lemma music_ok_initial : music_ok initial_music.
Proof. split; [cbn; lia | left; repeat split; reflexivity]. Qed.

Lemma music_ok_start (ready : bool) (m : Music) :
  music_ok m -> music_ok (startMusic ready m).
Proof.
  intros Hok. pose proof Hok as [Hn H]. unfold startMusic.
  destruct (music_playing (musicStateRef m)) eqn:P; [exact Hok |].
  destruct ready; cbn [negb]; [| exact Hok].
  destruct H as [(_ & _ & Hi) | (Hp & _)]; [| congruence].
  split; [cbn; lia |]. right. split; [reflexivity |].
  exists (next_interval m). cbn. rewrite Hi.
  split; [exact Hn | split; reflexivity].
Qed.

Lemma music_ok_stop (m : Music) :
  music_ok m ->
  music_ok (stopMusic m) /\ intervals (stopMusic m) = []
  /\ music_playing (musicStateRef (stopMusic m)) = false.
Proof.
  intros [Hn H].
  assert (Hi : intervals (stopMusic m) = []).
  { unfold stopMusic. cbn [intervals].
    destruct H as [(_ & -> & ->) | (_ & id & Hid & -> & ->)]; [reflexivity |].
    destruct (Nat.eqb id 0) eqn:E0; [apply Nat.eqb_eq in E0; lia |].
    unfold clearInterval. cbn [filter]. rewrite Nat.eqb_refl. reflexivity. }
  split; [| split; [exact Hi | reflexivity]].
  split; [exact Hn |]. left. split; [reflexivity | split; [reflexivity | exact Hi]].
Qed.

(** X21.  However [startMusic] and [stopMusic] are called, from the start
    of the page on, at most one music interval timer is running; it runs
    exactly while [musicStateRef.current.playing] is set and is the one whose
    identifier is recorded there.  [startMusic] while the music plays does
    nothing, and [stopMusic] always leaves no timer behind. *)
Theorem X21_one_music_timer :
  forall (calls : list MusicCall),
    let m := fold_left (fun m c => music_call c m) calls initial_music in
    (List.length (intervals m) <= 1)%nat
    /\ (music_playing (musicStateRef m) = true <-> intervals m <> [])
    /\ intervals m
       = match intervalId (musicStateRef m) with Some id => [id] | None => [] end
    /\ (music_playing (musicStateRef m) = true ->
        forall ready, startMusic ready m = m)
    /\ intervals (stopMusic m) = []
    /\ music_playing (musicStateRef (stopMusic m)) = false.
Proof.
  intros calls.
  assert (Hok : forall m0, music_ok m0 ->
            music_ok (fold_left (fun m c => music_call c m) calls m0)).
  { induction calls as [| c calls IH]; intros m0 H0; cbn [fold_left];
      [exact H0 |].
    apply IH. destruct c; cbn [music_call];
      [apply music_ok_start | apply music_ok_stop]; exact H0. }
  specialize (Hok initial_music music_ok_initial).
  cbv zeta.
  set (m := fold_left (fun m c => music_call c m) calls initial_music) in *.
  pose proof (music_ok_stop m Hok) as (_ & Hs1 & Hs2).
  destruct Hok as [_ [(Hp & Hid & Hi) | (Hp & id & _ & Hid & Hi)]];
    rewrite Hp, Hid, Hi.
  - split; [cbn; lia |].
    split; [split; [discriminate | intros H; exfalso; apply H; reflexivity] |].
    split; [reflexivity |].
    split; [discriminate |].
    split; assumption.
  - split; [cbn; lia |].
    split; [split; [discriminate | reflexivity] |].
    split; [reflexivity |].
    split; [intros _ ready; unfold startMusic; rewrite Hp; reflexivity |].
    split; assumption.
Qed.

Lemma moved_scored_true (dt : R) (p : Player) (o : Obstacle) :
  scored o = true -> scored (moved dt p o) = true /\ gained dt p o = 0.
Proof.
  intros Hs.
  assert (Hp : passes p (advance dt o) = false).
  { apply passes_false. left. rewrite advance_scored. exact Hs. }
  unfold moved, gained. rewrite Hp. split; [| reflexivity].
  rewrite advance_scored. exact Hs.
Qed.

Lemma track_scored (steps : list (R * Player)) :
  forall (o : Obstacle) (sc : R),
    scored o = true ->
    snd (track steps o sc) = sc /\ scored (fst (track steps o sc)) = true.
Proof.
  induction steps as [| [dt p] rest IH]; intros o sc Hs; cbn [track].
  - split; [reflexivity | exact Hs].
  - destruct (moved_scored_true dt p o Hs) as [Hm Hg].
    rewrite Hg. replace (sc + 0) with sc by lra. apply IH. exact Hm.
Qed.

(** X22.  Over any number of ticks, with any time steps and player
    positions, an object adds to the score at most once: what it adds in
    total is nothing, or exactly its 8 (alien) or 5 (asteroid) points, and in
    the second case its flag is set from then on; an object whose flag is
    set adds nothing, and the flag is never cleared. *)
Theorem X22_scores_at_most_once :
  forall (steps : list (R * Player)) (o : Obstacle) (sc : R),
    (snd (track steps o sc) = sc
     \/ (snd (track steps o sc)
         = sc + match type o with alien => 8 | asteroid => 5 end
         /\ scored o = false
         /\ scored (fst (track steps o sc)) = true))
    /\ (scored o = true ->
        snd (track steps o sc) = sc /\ scored (fst (track steps o sc)) = true).
Proof.
  intros steps o sc. split; [| apply track_scored].
  revert o sc. induction steps as [| [dt p] rest IH]; intros o sc; cbn [track].
  - left. reflexivity.
  - destruct (passes p (advance dt o)) eqn:Hp.
    + right.
      assert (Hs : scored o = false).
      { unfold passes in Hp. rewrite advance_scored in Hp.
        destruct (scored o); [discriminate | reflexivity]. }
      assert (Hm : scored (moved dt p o) = true).
      { unfold moved. rewrite Hp. reflexivity. }
      destruct (track_scored rest (moved dt p o) (sc + gained dt p o) Hm)
        as [H1 H2].
      split; [| split; [exact Hs | exact H2]].
      rewrite H1. unfold gained, points. rewrite Hp. reflexivity.
    + assert (Hg : gained dt p o = 0) by (unfold gained; rewrite Hp; reflexivity).
      assert (Hm : moved dt p o = advance dt o)
        by (unfold moved; rewrite Hp; reflexivity).
      rewrite Hg, Hm. replace (sc + 0) with sc by lra.
      destruct (IH (advance dt o) sc) as [H | (H1 & H2 & H3)]; [left; exact H |].
      right. rewrite advance_type, advance_scored in *. tauto.
Qed.
